(** * Kustomize deployer of skaffold: dependency resolution and the
      render / replace-images / apply pipeline

    Shallow embedding of [pkg/skaffold/deploy/kustomize.go].

    - [dependenciesForKustomization] is embedded over an explicit file-system
      state (a mapping from paths to open results, and a history of the
      operations performed on it) and with fuel standing for the depth of the
      Go call stack: the Go function recurses on the bases of an overlay and
      has no other termination argument.
    - [Deploy], [Cleanup] and [readManifests] are embedded in a state monad
      over the outside world that also records the calls made to the
      collaborators (renderer process, image replacement, kubectl apply and
      delete, result parsing).  The collaborators themselves live in other
      packages and are section variables. *)

From Stdlib Require Import String Ascii List Arith Lia Bool.
From Stdlib.Strings Require Import Byte.
Import ListNotations.
Open Scope string_scope.
Open Scope list_scope.

Set Implicit Arguments.

(* ================================================================== *)
(** ** Go errors *)

(** A Go [error] value that is not nil.  [withMessage] is what
    [errors.Wrap] of github.com/pkg/errors builds around its cause. *)
Inductive error : Type :=
| errorString (msg : string)
| withMessage (cause : error) (msg : string).

(** [errors.Wrap(err, message)]: nil stays nil, anything else is annotated. *)
Definition errors_Wrap (err : option error) (message : string) : option error :=
  match err with
  | None => None
  | Some e => Some (withMessage e message)
  end.

(* ================================================================== *)
(** ** path/filepath on a slash-separated system *)

Module filepath.

(** Splits a path at every ["/"]. *)
Fixpoint split (s : string) : list string :=
  match s with
  | EmptyString => [EmptyString]
  | String c rest =>
      if Ascii.eqb c "/"%char then EmptyString :: split rest
      else match split rest with
           | [] => [String c EmptyString]
           | hd :: tl => String c hd :: tl
           end
  end.

(** The element loop of [Clean]; [out] is the output so far, last
    element first. *)
Fixpoint clean_elems (rooted : bool) (elems out : list string) : list string :=
  match elems with
  | [] => rev out
  | e :: rest =>
      if (e =? "")%string then clean_elems rooted rest out
      else if (e =? ".")%string then clean_elems rooted rest out
      else if (e =? "..")%string then
        match out with
        | top :: out' =>
            if (top =? "..")%string then clean_elems rooted rest (e :: out)
            else clean_elems rooted rest out'
        | [] =>
            if rooted then clean_elems rooted rest []
            else clean_elems rooted rest [e]
        end
      else clean_elems rooted rest (e :: out)
  end.

Definition is_rooted (path : string) : bool :=
  match path with
  | String c _ => Ascii.eqb c "/"%char
  | EmptyString => false
  end.

Definition Clean (path : string) : string :=
  let rooted := is_rooted path in
  let elems := clean_elems rooted (split path) [] in
  if rooted then "/" ++ String.concat "/" elems
  else match elems with
       | [] => "."
       | _ => String.concat "/" elems
       end.

(** [filepath.Join(a, b)]: empty elements are ignored, the rest is joined
    with the separator and cleaned. *)
Definition Join (a b : string) : string :=
  if (a =? "")%string then
    if (b =? "")%string then "" else Clean b
  else Clean (a ++ "/" ++ b).

End filepath.

(* ================================================================== *)
(** ** The file system seen by the resolver *)

(** An open [*os.File]: the path it was opened at and the bytes a reader
    gets from it. *)
Record File : Type := mkFile { Name : string; Data : string }.

(** Operations the resolver performs on the file system, in order. *)
Inductive fs_op : Type :=
| OpOpen (path : string)
| OpRead (name : string)
| OpClose (name : string).

(** The state of the file system: what opening each path gives (the bytes
    of the file, or the error of [os.Open]), and the operations done so far. *)
Record FS : Type := mkFS {
  files : string -> string + error;
  history : list fs_op
}.

(** The anonymous struct decoded from [kustomization.yaml]. *)
Record kustomization : Type := mkKustomization {
  Bases : list string;
  Resources : list string;
  Patches : list string
}.

(** The zero value of the struct. *)
Definition kustomization_zero : kustomization := mkKustomization [] [] [].

(* ================================================================== *)
(** ** The resolver monad: file-system state, and [None] when the fuel
       (the depth allowed to the call stack) is used up *)

Definition M (A : Type) : Type := FS -> option (A * FS).

Definition ret {A : Type} (a : A) : M A := fun fs => Some (a, fs).

Definition bind {A B : Type} (m : M A) (k : A -> M B) : M B :=
  fun fs => match m fs with
            | Some (a, fs') => k a fs'
            | None => None
            end.

Definition diverge {A : Type} : M A := fun _ => None.

Definition log (op : fs_op) : M unit :=
  fun fs => Some (tt, mkFS (files fs) (history fs ++ [op])).

Declare Scope resolver_scope.
Delimit Scope resolver_scope with resolver.
Notation "x <- m ;; k" := (bind m (fun x => k))
  (at level 61, m at next level, right associativity) : resolver_scope.
Notation "' p <- m ;; k" := (bind m (fun p => k))
  (at level 61, p pattern, m at next level, right associativity) : resolver_scope.
Notation "m ;;; k" := (bind m (fun _ => k))
  (at level 61, right associativity) : resolver_scope.

(** [os.Open(path)]: read-only open. *)
Definition os_Open (path : string) : M (File + error) :=
  fun fs => Some (match files fs path with
                  | inl data => inl (mkFile path data)
                  | inr err => inr err
                  end,
                  mkFS (files fs) (history fs ++ [OpOpen path])).

(** [file.Close()]. *)
Definition File_Close (file : File) : M unit := log (OpClose (Name file)).

Section Resolver.

(** [filepath.Join] of the platform. *)
Variable Join : string -> string -> string.

(** What [yaml.NewDecoder(file).Decode(&contents)] does to a zero
    [contents] for the bytes of the file: the struct afterwards and the
    error returned. *)
Variable yaml_Decode : string -> kustomization * option error.

Definition Decoder_Decode (file : File) : M (kustomization * option error) :=
  (log (OpRead (Name file)) ;;; ret (yaml_Decode (Data file)))%resolver.

(** [for _, base := range contents.Bases { ... }] of the resolver, with
    the recursive call as [self].  The error of the pair is [Some] exactly
    when the loop left the function through [return deps, err]. *)
Fixpoint range_Bases (self : string -> M (list string * option error))
         (dir : string) (bases : list string) (deps : list string)
  : M (list string * option error) :=
  match bases with
  | [] => ret (deps, None)
  | base :: rest =>
      ('(baseDeps, err) <- self (Join dir base) ;;
       let deps := deps ++ baseDeps in
       match err with
       | Some e => ret (deps, Some e)
       | None => range_Bases self dir rest deps
       end)%resolver
  end.

(** [for _, x := range xs { deps = append(deps, filepath.Join(dir, x)) }] *)
Fixpoint range_append (dir : string) (xs : list string) (deps : list string)
  : list string :=
  match xs with
  | [] => deps
  | x :: rest => range_append dir rest (deps ++ [Join dir x])
  end.

(** [dependenciesForKustomization(dir)].  The Go pair [(deps, err)] is the
    pair returned; [fuel] bounds the number of nested calls, and a call that
    would need more does not return ([None]). *)
Fixpoint dependenciesForKustomization (fuel : nat) (dir : string)
  : M (list string * option error) :=
  match fuel with
  | O => diverge
  | S fuel' =>
      let path := Join dir "kustomization.yaml" in
      let deps := [path] in
      (opened <- os_Open path ;;
       match opened with
       | inr err => ret (deps, Some err)
       | inl file =>
           (* defer file.Close() *)
           r <- ('(contents, err) <- Decoder_Decode file ;;
                 match err with
                 | Some e => ret (deps, Some e)
                 | None =>
                     '(deps, err) <- range_Bases
                                       (dependenciesForKustomization fuel')
                                       dir (Bases contents) deps ;;
                     match err with
                     | Some e => ret (deps, Some e)
                     | None =>
                         let deps := range_append dir (Resources contents) deps in
                         let deps := range_append dir (Patches contents) deps in
                         ret (deps, None)
                     end
                 end) ;;
           File_Close file ;;;
           ret r
       end)%resolver
  end.

End Resolver.

(* ================================================================== *)
(** ** The deploy pipeline *)

(** [[]byte] and [kubectl.ManifestList]. *)
Definition bytes : Type := list byte.
Definition ManifestList : Type := list bytes.

Section Pipeline.

(** [context.Context], [io.Writer] and the outside world (processes, the
    cluster) that the collaborators act on. *)
Variables Context Writer World : Type.

(** [v1alpha3.KubectlFlags], [build.Artifact] and the deployer's own
    [Artifact]: declared in other packages. *)
Variables KubectlFlags build_Artifact Artifact : Type.

(** [v1alpha3.KustomizeDeploy], as far as this file uses it. *)
Record KustomizeDeploy : Type := mkKustomizeDeploy {
  KustomizePath : string;
  Flags : KubectlFlags
}.

(** [kubectl.CLI]. *)
Record CLI : Type := mkCLI {
  Namespace : string;
  KubeContext : string;
  CLI_Flags : KubectlFlags
}.

Record KustomizeDeployer : Type := mkKustomizeDeployer {
  cfg : KustomizeDeploy;   (* the embedded *v1alpha3.KustomizeDeploy *)
  kubectl : CLI
}.

Definition NewKustomizeDeployer (c : KustomizeDeploy) (kubeContext namespace : string)
  : KustomizeDeployer :=
  mkKustomizeDeployer c (mkCLI namespace kubeContext (Flags c)).

(** [*exec.Cmd] as built by [exec.CommandContext(ctx, name, arg...)]. *)
Record Cmd : Type := mkCmd {
  Cmd_ctx : Context;
  Cmd_name : string;
  Cmd_args : list string
}.

Definition exec_CommandContext (ctx : Context) (name : string) (arg : list string) : Cmd :=
  mkCmd ctx name arg.

(** The calls a deployer makes to its collaborators. *)
Inductive Call : Type :=
| CallRunCmdOut (cmd : Cmd)
| CallReplaceImages (manifests : ManifestList) (builds : list build_Artifact)
| CallApply (cli : CLI) (manifests : ManifestList)
| CallDelete (cli : CLI) (manifests : ManifestList)
| CallParse (manifests : ManifestList).

Record Sys : Type := mkSys {
  world : World;
  calls : list Call
}.

Definition P (A : Type) : Type := Sys -> A * Sys.

Definition pret {A : Type} (a : A) : P A := fun s => (a, s).

Definition pbind {A B : Type} (m : P A) (k : A -> P B) : P B :=
  fun s => let (a, s') := m s in k a s'.

(** Records [c], then lets the collaborator [f] act on the world. *)
Definition call {A : Type} (c : Call) (f : World -> A * World) : P A :=
  fun s => let (a, w) := f (world s) in (a, mkSys w (calls s ++ [c])).

(** The collaborators: functions of the Go library and of other packages
    of the repository, with the world they act on passed explicitly. *)
Variable util_RunCmdOut : Cmd -> World -> (bytes * option error) * World.
Variable ManifestList_Append : ManifestList -> bytes -> ManifestList.
Variable ManifestList_ReplaceImages :
  ManifestList -> list build_Artifact -> ManifestList * option error.
Variable CLI_Apply :
  CLI -> Context -> Writer -> ManifestList -> World -> (ManifestList * option error) * World.
Variable CLI_Delete :
  CLI -> Context -> Writer -> ManifestList -> World -> option error * World.
Variable parseManifestsForDeploys : ManifestList -> list Artifact * option error.

Notation "' p <- m ;; k" := (pbind m (fun p => k))
  (at level 61, p pattern, m at next level, right associativity).
Notation "x <- m ;; k" := (pbind m (fun x => k))
  (at level 61, m at next level, right associativity).

(** [KustomizeDeployer.readManifests]: runs [kustomize build] on the
    overlay and appends its output to an empty manifest list. *)
Definition readManifests (k : KustomizeDeployer) (ctx : Context)
  : P (ManifestList * option error) :=
  let cmd := exec_CommandContext ctx "kustomize" ["build"; KustomizePath (cfg k)] in
  '(out, err) <- call (CallRunCmdOut cmd) (util_RunCmdOut cmd) ;;
  match err with
  | Some _ => pret ([], errors_Wrap err "kustomize build")
  | None =>
      let manifests : ManifestList := [] in
      let manifests := ManifestList_Append manifests out in
      pret (manifests, None)
  end.

(** [KustomizeDeployer.Deploy].  A nil slice and an empty slice are both
    the empty list. *)
Definition Deploy (k : KustomizeDeployer) (ctx : Context) (out : Writer)
           (builds : list build_Artifact) : P (list Artifact * option error) :=
  '(manifests, err) <- readManifests k ctx ;;
  match err with
  | Some _ => pret ([], errors_Wrap err "reading manifests")
  | None =>
      if Nat.eqb (length manifests) 0 then pret ([], None)
      else
        '(manifests, err) <- call (CallReplaceImages manifests builds)
                                  (fun w => (ManifestList_ReplaceImages manifests builds, w)) ;;
        match err with
        | Some _ => pret ([], errors_Wrap err "replacing images in manifests")
        | None =>
            '(updated, err) <- call (CallApply (kubectl k) manifests)
                                    (CLI_Apply (kubectl k) ctx out manifests) ;;
            match err with
            | Some _ => pret ([], errors_Wrap err "apply")
            | None =>
                call (CallParse updated)
                     (fun w => (parseManifestsForDeploys updated, w))
            end
        end
  end.

(** [KustomizeDeployer.Cleanup]. *)
Definition Cleanup (k : KustomizeDeployer) (ctx : Context) (out : Writer)
  : P (option error) :=
  '(manifests, err) <- readManifests k ctx ;;
  match err with
  | Some _ => pret (errors_Wrap err "reading manifests")
  | None =>
      err <- call (CallDelete (kubectl k) manifests)
                  (CLI_Delete (kubectl k) ctx out manifests) ;;
      match err with
      | Some _ => pret (errors_Wrap err "delete")
      | None => pret None
      end
  end.

(** [filepath.Join] and the YAML decoder, as for the resolver. *)
Variable Join : string -> string -> string.
Variable yaml_Decode : string -> kustomization * option error.

(** [KustomizeDeployer.Dependencies]. *)
Definition Dependencies (k : KustomizeDeployer) (fuel : nat)
  : M (list string * option error) :=
  dependenciesForKustomization Join yaml_Decode fuel (KustomizePath (cfg k)).

End Pipeline.

(* ================================================================== *)
(** ** Vocabulary of the properties *)

(** [reads_only m]: on every file system, [m] either runs out of stack
    whatever was done before, or returns a value and a list of operations
    that depend on the files only, appends these operations to the history and
    leaves the files alone. *)
Definition reads_only {A : Type} (m : M A) : Prop :=
  forall fls : string -> string + error,
  exists o : option (A * list fs_op),
  forall h : list fs_op,
    m (mkFS fls h) = match o with
                     | Some (a, t) => Some (a, mkFS fls (h ++ t))
                     | None => None
                     end.

Section Hierarchy.

Variable Join : string -> string -> string.
Variable yaml_Decode : string -> kustomization * option error.

(** The definition file of an overlay directory. *)
Definition defpath (dir : string) : string := Join dir "kustomization.yaml".

(** [returns_from fs fuel dir r t]: called in state [fs] with room for
    [fuel] nested calls, the resolver returns [r], leaves every file as it
    was and has performed exactly the operations [t]. *)
Definition returns_from (fs : FS) (fuel : nat) (dir : string)
           (r : list string * option error) (t : list fs_op) : Prop :=
  dependenciesForKustomization Join yaml_Decode fuel dir fs
  = Some (r, mkFS (files fs) (history fs ++ t)).

(** The overlay directories the resolver recurses into from [dir]: the
    bases of a definition file that opens and decodes. *)
Definition bases_of (fls : string -> string + error) (dir : string) : list string :=
  match fls (defpath dir) with
  | inl data =>
      match yaml_Decode data with
      | (contents, None) => map (Join dir) (Bases contents)
      | (_, Some _) => []
      end
  | inr _ => []
  end.

(** [base_ref fls child parent]: [child] is a base of [parent]. *)
Definition base_ref (fls : string -> string + error) (child parent : string) : Prop :=
  In child (bases_of fls parent).

(** [nesting_leb fls n dir]: the hierarchy of overlays below [dir] is at most
    [n] levels deep, [dir] itself being the first level. *)
Fixpoint nesting_leb (fls : string -> string + error) (n : nat) (dir : string) : bool :=
  match n with
  | O => false
  | S n' => forallb (nesting_leb fls n') (bases_of fls dir)
  end.

End Hierarchy.

(** [wrapped cause e]: [e] is [cause] annotated by at least one
    [errors.Wrap]. *)
Inductive wrapped (cause : error) : error -> Prop :=
| wrapped_once msg : wrapped cause (withMessage cause msg)
| wrapped_more e msg : wrapped cause e -> wrapped cause (withMessage e msg).

(** Number of annotations around the cause of an error. *)
Fixpoint wrap_depth (e : error) : nat :=
  match e with
  | errorString _ => 0
  | withMessage c _ => S (wrap_depth c)
  end.

(** The open files, most recent first, after one operation on a file
    system where [open] were open: an [os.Open] that succeeds adds the file;
    a read is allowed on the most recently opened file only; a close must
    close that file.  [None] when the operation breaks this discipline. *)
Definition fd_step (fls : string -> string + error) (open : list string)
           (op : fs_op) : option (list string) :=
  match op with
  | OpOpen path =>
      match fls path with
      | inl _ => Some (path :: open)
      | inr _ => Some open
      end
  | OpRead name =>
      match open with
      | top :: _ => if (top =? name)%string then Some open else None
      | [] => None
      end
  | OpClose name =>
      match open with
      | top :: rest => if (top =? name)%string then Some rest else None
      | [] => None
      end
  end.

Fixpoint fd_run (fls : string -> string + error) (open : list string)
         (ops : list fs_op) : option (list string) :=
  match ops with
  | [] => Some open
  | op :: rest =>
      match fd_step fls open op with
      | Some open' => fd_run fls open' rest
      | None => None
      end
  end.


(* ================================================================== *)
(** ** A small overlay tree and canned collaborators, for the examples *)

Module Demo.

(** Contents of the definition files of the tree

      app/            bases: [base], resources: [a.yaml, b.yaml], patches: [p.yaml]
      app/base/       resources: [r.yaml]
      plain/          nothing
      bad/            not YAML
      broken/         bases: [../app/base, gone, ../loop], resources: [x.yaml]
      loop/           bases: [.]

    Every other path does not exist. *)
Definition app_yaml : string := "bases: [base]; resources: [a.yaml, b.yaml]; patches: [p.yaml]".
Definition base_yaml : string := "resources: [r.yaml]".
Definition plain_yaml : string := "{}".
Definition bad_yaml : string := "{{".
Definition broken_yaml : string := "bases: [../app/base, gone, ../loop]; resources: [x.yaml]".
Definition loop_yaml : string := "bases: [.]".

Definition ENOENT (path : string) : error :=
  errorString ("open " ++ path ++ ": no such file or directory").

Definition tree (path : string) : string + error :=
  if (path =? "app/kustomization.yaml")%string then inl app_yaml
  else if (path =? "app/base/kustomization.yaml")%string then inl base_yaml
  else if (path =? "plain/kustomization.yaml")%string then inl plain_yaml
  else if (path =? "bad/kustomization.yaml")%string then inl bad_yaml
  else if (path =? "broken/kustomization.yaml")%string then inl broken_yaml
  else if (path =? "loop/kustomization.yaml")%string then inl loop_yaml
  else inr (ENOENT path).

Definition yaml_error : error := errorString "yaml: did not find expected node content".

(** A decoder that knows the documents of the tree. *)
Definition decode (data : string) : kustomization * option error :=
  if (data =? app_yaml)%string then
    (mkKustomization ["base"] ["a.yaml"; "b.yaml"] ["p.yaml"], None)
  else if (data =? base_yaml)%string then
    (mkKustomization [] ["r.yaml"] [], None)
  else if (data =? plain_yaml)%string then
    (kustomization_zero, None)
  else if (data =? broken_yaml)%string then
    (mkKustomization ["../app/base"; "gone"; "../loop"] ["x.yaml"] [], None)
  else if (data =? loop_yaml)%string then
    (mkKustomization ["."] [] [], None)
  else (kustomization_zero, Some yaml_error).

Definition fs0 : FS := mkFS tree [].

Definition resolve : nat -> string -> M (list string * option error) :=
  dependenciesForKustomization filepath.Join decode.

(** Canned collaborators of the pipeline.  The world counts the calls that
    reached the cluster. *)
Definition exit_error : error := errorString "exit status 1".
Definition image_error : error := errorString "replacing images: malformed manifest".
Definition apply_error : error := errorString "kubectl apply: exit status 1".
Definition delete_error : error := errorString "kubectl delete: exit status 1".

Definition deployment : bytes := list_byte_of_string "kind: Deployment".

(** The renderer fails on the overlay ["fail"], prints nothing for the
    overlay ["empty"] and one manifest otherwise. *)
Definition RunCmdOut (cmd : Cmd unit) (w : nat) : (bytes * option error) * nat :=
  match Cmd_args cmd with
  | [_; path] =>
      if (path =? "fail")%string then (([], Some exit_error), w)
      else if (path =? "empty")%string then (([], None), w)
      else ((deployment, None), w)
  | _ => (([], Some exit_error), w)
  end.

(** An [Append] that adds a buffer as one manifest and skips an empty one. *)
Definition Append (l : ManifestList) (buf : bytes) : ManifestList :=
  match buf with
  | [] => l
  | _ => l ++ [buf]
  end.

(** Image replacement fails when asked to place the artifact ["bad"]. *)
Definition ReplaceImages (l : ManifestList) (builds : list string)
  : ManifestList * option error :=
  if existsb (String.eqb "bad") builds then ([], Some image_error) else (l, None).

(** Apply and delete fail in the namespace ["locked"]. *)
Definition Apply (cli : CLI unit) (_ _ : unit) (l : ManifestList) (w : nat)
  : (ManifestList * option error) * nat :=
  if (Namespace cli =? "locked")%string then (([], Some apply_error), w)
  else ((l, None), S w).

Definition Delete (cli : CLI unit) (_ _ : unit) (l : ManifestList) (w : nat)
  : option error * nat :=
  if (Namespace cli =? "locked")%string then (Some delete_error, w)
  else (None, S w).

Definition parse (l : ManifestList) : list bytes * option error := (l, None).

Definition deployer (path namespace : string) : KustomizeDeployer unit :=
  NewKustomizeDeployer (mkKustomizeDeploy path tt) "minikube" namespace.

Definition sys0 : Sys unit nat unit string := mkSys 0 [].

Definition deploy (k : KustomizeDeployer unit) (builds : list string) :=
  Deploy RunCmdOut Append ReplaceImages Apply parse k tt tt builds.

Definition cleanup (k : KustomizeDeployer unit) :=
  Cleanup (build_Artifact := string) RunCmdOut Append Delete k tt tt.

(** What the resolver returns and does on [app/base], [app] and [broken]. *)
Definition base_deps : list string :=
  ["app/base/kustomization.yaml"; "app/base/r.yaml"].

Definition base_ops : list fs_op :=
  [OpOpen "app/base/kustomization.yaml"; OpRead "app/base/kustomization.yaml";
   OpClose "app/base/kustomization.yaml"].

Definition app_deps : list string :=
  ["app/kustomization.yaml"; "app/base/kustomization.yaml"; "app/base/r.yaml";
   "app/a.yaml"; "app/b.yaml"; "app/p.yaml"].

Definition app_ops : list fs_op :=
  [OpOpen "app/kustomization.yaml"; OpRead "app/kustomization.yaml";
   OpOpen "app/base/kustomization.yaml"; OpRead "app/base/kustomization.yaml";
   OpClose "app/base/kustomization.yaml";
   OpClose "app/kustomization.yaml"].

Definition broken_deps : list string :=
  ["broken/kustomization.yaml"; "app/base/kustomization.yaml"; "app/base/r.yaml";
   "broken/gone/kustomization.yaml"].

Definition broken_ops : list fs_op :=
  [OpOpen "broken/kustomization.yaml"; OpRead "broken/kustomization.yaml";
   OpOpen "app/base/kustomization.yaml"; OpRead "app/base/kustomization.yaml";
   OpClose "app/base/kustomization.yaml";
   OpOpen "broken/gone/kustomization.yaml";
   OpClose "broken/kustomization.yaml"].

(** The tree with other resource and patch files, and without [plain]. *)
Definition tree2 (path : string) : string + error :=
  if (path =? "app/a.yaml")%string then inl "kind: Service"
  else if (path =? "plain/kustomization.yaml")%string then inr (ENOENT path)
  else tree path.

End Demo.

(* ================================================================== *)
(** ** Properties of the resolver *)

Unset Implicit Arguments.

Section ResolverProperties.

Variable Join : string -> string -> string.
Variable yaml_Decode : string -> kustomization * option error.

Local Abbreviation resolve := (dependenciesForKustomization Join yaml_Decode).
Local Abbreviation def := (defpath Join).
Local Abbreviation returns := (returns_from Join yaml_Decode).

(** *** The resolver only reads *)

Lemma reads_only_ret (A : Type) (a : A) : reads_only (ret a).
Proof.
  intros fls. exists (Some (a, [])). intros h.
  unfold ret. now rewrite app_nil_r.
Qed.

Lemma reads_only_diverge (A : Type) : reads_only (@diverge A).
Proof. intros fls. now exists None. Qed.

Lemma reads_only_log (op : fs_op) : reads_only (log op).
Proof. intros fls. now exists (Some (tt, [op])). Qed.

Lemma reads_only_os_Open (path : string) : reads_only (os_Open path).
Proof.
  intros fls.
  exists (Some (match fls path with
                | inl data => inl (mkFile path data)
                | inr err => inr err
                end, [OpOpen path])).
  reflexivity.
Qed.

Lemma reads_only_bind (A B : Type) (m : M A) (k : A -> M B) :
  reads_only m -> (forall a, reads_only (k a)) -> reads_only (bind m k).
Proof.
  intros Hm Hk fls.
  destruct (Hm fls) as [[[a t]|] Ho].
  - destruct (Hk a fls) as [[[b t']|] Ho'].
    + exists (Some (b, t ++ t')). intros h.
      unfold bind. now rewrite Ho, Ho', app_assoc.
    + exists None. intros h. unfold bind. now rewrite Ho, Ho'.
  - exists None. intros h. unfold bind. now rewrite Ho.
Qed.

Lemma reads_only_range_Bases (self : string -> M (list string * option error))
      (dir : string) (bases : list string) :
  (forall d, reads_only (self d)) ->
  forall deps, reads_only (range_Bases Join self dir bases deps).
Proof.
  intros Hself. induction bases as [|base rest IH]; intros deps; simpl.
  - apply reads_only_ret.
  - apply reads_only_bind; [apply Hself|].
    intros [baseDeps [e|]]; [apply reads_only_ret | apply IH].
Qed.

Lemma reads_only_resolve (fuel : nat) :
  forall dir, reads_only (resolve fuel dir).
Proof.
  induction fuel as [|fuel IH]; intros dir; simpl.
  - apply reads_only_diverge.
  - apply reads_only_bind; [apply reads_only_os_Open|].
    intros [file|err]; [|apply reads_only_ret].
    apply reads_only_bind.
    + apply reads_only_bind.
      * unfold Decoder_Decode.
        apply reads_only_bind; [apply reads_only_log|].
        intros _. apply reads_only_ret.
      * intros [contents [e|]]; [apply reads_only_ret|].
        apply reads_only_bind; [now apply reads_only_range_Bases|].
        intros [deps [e|]]; apply reads_only_ret.
    + intros r. apply reads_only_bind; [apply reads_only_log|].
      intros _. apply reads_only_ret.
Qed.

(** A call that returns has appended its operations to the history, and
    returns the same from every state with the same files. *)
Lemma resolve_frame (fuel : nat) (dir : string) (fs fs' : FS)
      (r : list string * option error) :
  resolve fuel dir fs = Some (r, fs') ->
  exists t,
    fs' = mkFS (files fs) (history fs ++ t) /\
    forall h, resolve fuel dir (mkFS (files fs) h) = Some (r, mkFS (files fs) (h ++ t)).
Proof.
  destruct fs as [fls h0]. simpl. intros H.
  destruct (reads_only_resolve fuel dir fls) as [[[a t]|] Ho];
    rewrite Ho in H; [|discriminate].
  injection H as -> <-.
  exists t. split; [reflexivity | exact Ho].
Qed.

Lemma returns_frame (fs : FS) (fuel : nat) (dir : string)
      (r : list string * option error) (t : list fs_op) :
  returns fs fuel dir r t ->
  forall h, resolve fuel dir (mkFS (files fs) h) = Some (r, mkFS (files fs) (h ++ t)).
Proof.
  unfold returns_from. intros H.
  destruct (resolve_frame _ _ _ _ _ H) as (t' & Heq & Hall).
  injection Heq as Heq. apply app_inv_head in Heq. now subst t'.
Qed.

(** *** The loops *)

Lemma range_append_spec (dir : string) (xs deps : list string) :
  range_append Join dir xs deps = deps ++ map (Join dir) xs.
Proof.
  revert deps. induction xs as [|x rest IH]; intros deps; simpl.
  - now rewrite app_nil_r.
  - now rewrite IH, <- app_assoc.
Qed.

(** Every listed base resolves without error: the loop appends the
    closures in order and falls through. *)
Lemma range_Bases_ok (self : string -> M (list string * option error))
      (dir : string) (fls : string -> string + error)
      (bases : list string) (outs : list (list string * list fs_op)) :
  Forall2 (fun base o =>
             forall h, self (Join dir base) (mkFS fls h)
                       = Some ((fst o, None), mkFS fls (h ++ snd o)))
          bases outs ->
  forall deps h,
    range_Bases Join self dir bases deps (mkFS fls h)
    = Some ((deps ++ concat (map fst outs), None),
            mkFS fls (h ++ concat (map snd outs))).
Proof.
  induction 1 as [|base o rest outs Hbase _ IH]; intros deps h; simpl.
  - unfold ret. now rewrite !app_nil_r.
  - unfold bind. rewrite Hbase, IH. now rewrite <- !app_assoc.
Qed.

(** A base fails: the loop appends what the failing call returned and
    leaves the function. *)
Lemma range_Bases_fail (self : string -> M (list string * option error))
      (dir : string) (fls : string -> string + error)
      (pre : list string) (outs : list (list string * list fs_op))
      (base : string) (post : list string)
      (partial : list string) (err : error) (tb : list fs_op) :
  Forall2 (fun b o =>
             forall h, self (Join dir b) (mkFS fls h)
                       = Some ((fst o, None), mkFS fls (h ++ snd o)))
          pre outs ->
  (forall h, self (Join dir base) (mkFS fls h)
             = Some ((partial, Some err), mkFS fls (h ++ tb))) ->
  forall deps h,
    range_Bases Join self dir (pre ++ base :: post) deps (mkFS fls h)
    = Some ((deps ++ concat (map fst outs) ++ partial, Some err),
            mkFS fls (h ++ concat (map snd outs) ++ tb)).
Proof.
  intros Hpre Hbase.
  induction Hpre as [|b o rest outs Hb _ IH]; intros deps h; simpl.
  - unfold bind. now rewrite Hbase.
  - unfold bind. rewrite Hb, IH. now rewrite <- !app_assoc.
Qed.

(** Whatever the loop returns starts with what it was given. *)
Lemma range_Bases_prefix (self : string -> M (list string * option error))
      (dir : string) (bases : list string) :
  forall deps fs deps' err fs',
    range_Bases Join self dir bases deps fs = Some ((deps', err), fs') ->
    exists rest, deps' = deps ++ rest.
Proof.
  induction bases as [|base rest IH]; intros deps fs deps' err fs'; simpl.
  - unfold ret. intros [= <- _ _]. exists []. now rewrite app_nil_r.
  - unfold bind.
    destruct (self (Join dir base) fs) as [[[baseDeps [e|]] fs1]|]; [| |discriminate].
    + unfold ret. intros [= <- _ _]. now exists baseDeps.
    + intros H. apply IH in H. destruct H as [tl ->].
      exists (baseDeps ++ tl). now rewrite app_assoc.
Qed.

(** The loop with a deeper stack returns whatever it returned with a
    shallower one. *)
Lemma range_Bases_mono (self1 self2 : string -> M (list string * option error))
      (dir : string) (bases : list string) :
  (forall d fs r, self1 d fs = Some r -> self2 d fs = Some r) ->
  forall deps fs r,
    range_Bases Join self1 dir bases deps fs = Some r ->
    range_Bases Join self2 dir bases deps fs = Some r.
Proof.
  intros Hself.
  induction bases as [|base rest IH]; intros deps fs r; simpl; [easy|].
  unfold bind.
  destruct (self1 (Join dir base) fs) as [[[baseDeps e] fs1]|] eqn:E; [|discriminate].
  rewrite (Hself _ _ _ E).
  destruct e; [easy | apply IH].
Qed.

(** The loop returns when the call on each base does. *)
Lemma range_Bases_total (self : string -> M (list string * option error))
      (dir : string) (fls : string -> string + error) (bases : list string) :
  (forall base, In base bases ->
     forall h, exists r t, self (Join dir base) (mkFS fls h) = Some (r, mkFS fls (h ++ t))) ->
  forall deps h,
  exists r t,
    range_Bases Join self dir bases deps (mkFS fls h) = Some (r, mkFS fls (h ++ t)).
Proof.
  induction bases as [|base rest IH]; intros Hall deps h; simpl.
  - exists (deps, None), []. unfold ret. now rewrite app_nil_r.
  - destruct (Hall base (or_introl eq_refl) h) as ([baseDeps [e|]] & t & Hrun);
      unfold bind; rewrite Hrun.
    + exists (deps ++ baseDeps, Some e), t. reflexivity.
    + destruct (IH (fun b Hb => Hall b (or_intror Hb)) (deps ++ baseDeps) (h ++ t))
        as (r & t' & Hrest).
      exists r, (t ++ t'). now rewrite Hrest, app_assoc.
Qed.

(** *** One level of the resolver *)

Lemma resolve_open_error (fuel : nat) (dir : string) (fls : string -> string + error)
      (h : list fs_op) (err : error) :
  fls (def dir) = inr err ->
  resolve (S fuel) dir (mkFS fls h)
  = Some (([def dir], Some err), mkFS fls (h ++ [OpOpen (def dir)])).
Proof.
  intros Hopen. simpl. unfold bind, os_Open, defpath in *. simpl.
  now rewrite Hopen.
Qed.

Lemma resolve_decode_error (fuel : nat) (dir : string) (fls : string -> string + error)
      (h : list fs_op) (data : string) (contents : kustomization) (err : error) :
  fls (def dir) = inl data ->
  yaml_Decode data = (contents, Some err) ->
  resolve (S fuel) dir (mkFS fls h)
  = Some (([def dir], Some err),
          mkFS fls (h ++ [OpOpen (def dir); OpRead (def dir); OpClose (def dir)])).
Proof.
  intros Hopen Hdec. simpl.
  unfold bind, os_Open, Decoder_Decode, File_Close, log, ret, bind, defpath in *. simpl.
  rewrite Hopen. simpl. rewrite Hdec. simpl.
  now rewrite <- !app_assoc.
Qed.

(** The definition file opens and decodes: the call is the loop over the
    bases between the opening and the closing of the file. *)
Lemma resolve_decoded (fuel : nat) (dir : string) (fls : string -> string + error)
      (h : list fs_op) (data : string) (contents : kustomization) :
  fls (def dir) = inl data ->
  yaml_Decode data = (contents, None) ->
  resolve (S fuel) dir (mkFS fls h)
  = match range_Bases Join (resolve fuel) dir (Bases contents) [def dir]
                      (mkFS fls (h ++ [OpOpen (def dir); OpRead (def dir)])) with
    | Some ((deps, Some e), fs') =>
        Some ((deps, Some e), mkFS (files fs') (history fs' ++ [OpClose (def dir)]))
    | Some ((deps, None), fs') =>
        Some ((deps ++ map (Join dir) (Resources contents)
                    ++ map (Join dir) (Patches contents), None),
              mkFS (files fs') (history fs' ++ [OpClose (def dir)]))
    | None => None
    end.
Proof.
  intros Hopen Hdec. simpl.
  unfold bind at 1. unfold os_Open, defpath in *. simpl. rewrite Hopen.
  unfold bind at 1. unfold bind at 1.
  unfold Decoder_Decode. unfold bind at 1. unfold log at 1. simpl.
  unfold ret at 1. rewrite Hdec. unfold bind at 1.
  rewrite <- app_assoc. simpl.
  destruct (range_Bases _ _ _ _ _ _) as [[[deps [e|]] fs']|]; try reflexivity.
  unfold ret, File_Close, log, bind. simpl.
  now rewrite !range_append_spec, <- app_assoc.
Qed.

(** *** Stack depth *)

Lemma resolve_mono (fuel : nat) :
  forall dir fs r,
    resolve fuel dir fs = Some r -> resolve (S fuel) dir fs = Some r.
Proof.
  induction fuel as [|fuel IH]; intros dir [fls h] r H; [discriminate|].
  destruct (fls (def dir)) as [data|err] eqn:Hopen.
  - destruct (yaml_Decode data) as [contents [e|]] eqn:Hdec.
    + rewrite (resolve_decode_error fuel _ _ _ _ _ _ Hopen Hdec) in H.
      now rewrite (resolve_decode_error (S fuel) _ _ _ _ _ _ Hopen Hdec).
    + rewrite (resolve_decoded fuel _ _ _ _ _ Hopen Hdec) in H.
      rewrite (resolve_decoded (S fuel) _ _ _ _ _ Hopen Hdec).
      destruct (range_Bases Join (resolve fuel) _ _ _ _) as [r0|] eqn:E;
        [|discriminate].
      now rewrite (range_Bases_mono _ _ _ _ IH _ _ _ E).
  - rewrite (resolve_open_error fuel _ _ _ _ Hopen) in H.
    now rewrite (resolve_open_error (S fuel) _ _ _ _ Hopen).
Qed.

Lemma resolve_mono_le (n m : nat) (dir : string) (fs : FS)
      (r : list string * option error * FS) :
  n <= m -> resolve n dir fs = Some r -> resolve m dir fs = Some r.
Proof.
  induction 1 as [|m _ IH]; intros H; [exact H|].
  apply resolve_mono. now apply IH.
Qed.

Lemma nesting_leb_S (fls : string -> string + error) (n : nat) :
  forall dir,
    nesting_leb Join yaml_Decode fls n dir = true ->
    nesting_leb Join yaml_Decode fls (S n) dir = true.
Proof.
  induction n as [|n IH]; intros dir H; [discriminate|].
  change (forallb (nesting_leb Join yaml_Decode fls (S n))
                  (bases_of Join yaml_Decode fls dir) = true).
  simpl in H. rewrite forallb_forall in *.
  intros d Hd. apply IH. now apply H.
Qed.

Lemma nesting_leb_le (fls : string -> string + error) (n m : nat) (dir : string) :
  n <= m ->
  nesting_leb Join yaml_Decode fls n dir = true ->
  nesting_leb Join yaml_Decode fls m dir = true.
Proof.
  induction 1 as [|m _ IH]; intros H; [exact H|].
  apply nesting_leb_S. now apply IH.
Qed.

(** A common bound for finitely many overlays that each have one. *)
Lemma nesting_leb_common (fls : string -> string + error) (dirs : list string) :
  (forall d, In d dirs -> exists n, nesting_leb Join yaml_Decode fls n d = true) ->
  exists n, forallb (nesting_leb Join yaml_Decode fls n) dirs = true.
Proof.
  induction dirs as [|d rest IH]; intros Hall.
  - now exists 0.
  - destruct (Hall d (or_introl eq_refl)) as [n Hn].
    destruct (IH (fun x Hx => Hall x (or_intror Hx))) as [m Hm].
    exists (Nat.max n m). simpl. apply andb_true_intro. split.
    + apply nesting_leb_le with n; [lia | exact Hn].
    + rewrite forallb_forall in *. intros x Hx.
      apply nesting_leb_le with m; [lia | now apply Hm].
Qed.

Lemma acyclic_nesting (fls : string -> string + error) (dir : string) :
  Acc (base_ref Join yaml_Decode fls) dir ->
  exists n, nesting_leb Join yaml_Decode fls n dir = true.
Proof.
  induction 1 as [dir _ IH].
  destruct (nesting_leb_common fls (bases_of Join yaml_Decode fls dir) IH) as [n Hn].
  now exists (S n).
Qed.

Lemma nesting_terminates (fls : string -> string + error) (n : nat) :
  forall dir,
    nesting_leb Join yaml_Decode fls n dir = true ->
    forall h, exists r t, resolve n dir (mkFS fls h) = Some (r, mkFS fls (h ++ t)).
Proof.
  induction n as [|n IH]; intros dir Hn h; [discriminate|].
  simpl in Hn. unfold bases_of in Hn.
  destruct (fls (def dir)) as [data|err] eqn:Hopen.
  - destruct (yaml_Decode data) as [contents [e|]] eqn:Hdec.
    + rewrite (resolve_decode_error _ _ _ _ _ _ _ Hopen Hdec). eauto.
    + rewrite (resolve_decoded _ _ _ _ _ _ Hopen Hdec).
      rewrite forallb_forall in Hn.
      destruct (range_Bases_total (resolve n) dir fls (Bases contents))
        with (deps := [def dir]) (h := h ++ [OpOpen (def dir); OpRead (def dir)])
        as ([deps [e|]] & t & Hloop).
      * intros base Hbase. apply IH. apply Hn. now apply in_map.
      * rewrite Hloop. simpl. do 2 eexists. now rewrite <- !app_assoc.
      * rewrite Hloop. simpl. do 2 eexists. now rewrite <- !app_assoc.
  - rewrite (resolve_open_error _ _ _ _ _ Hopen). eauto.
Qed.

(** *** The statements *)

(** C1.  When the definition file of [dir] opens and decodes and every
    listed base resolves without error, the resolver returns, without error,
    the definition-file path, then the closure of each base in the order
    listed, then each resources entry joined with [dir], then each patches
    entry joined with [dir].  Besides what the calls on the bases do, it only
    opens, reads and closes the definition file: no resources or patches
    entry is opened. *)
Theorem resolve_success_closure (fuel : nat) (dir : string) (fs : FS)
        (data : string) (contents : kustomization)
        (outs : list (list string * list fs_op)) :
  files fs (def dir) = inl data ->
  yaml_Decode data = (contents, None) ->
  Forall2 (fun base o => returns fs fuel (Join dir base) (fst o, None) (snd o))
          (Bases contents) outs ->
  returns fs (S fuel) dir
          ([def dir] ++ concat (map fst outs)
                     ++ map (Join dir) (Resources contents)
                     ++ map (Join dir) (Patches contents), None)
          ([OpOpen (def dir); OpRead (def dir)]
             ++ concat (map snd outs) ++ [OpClose (def dir)]).
Proof.
  intros Hopen Hdec Hbases.
  assert (Hloop : forall deps h,
             range_Bases Join (resolve fuel) dir (Bases contents) deps (mkFS (files fs) h)
             = Some ((deps ++ concat (map fst outs), None),
                     mkFS (files fs) (h ++ concat (map snd outs)))).
  { apply range_Bases_ok.
    eapply Forall2_impl; [|exact Hbases].
    intros base o H. exact (returns_frame _ _ _ _ _ H). }
  destruct fs as [fls h]. unfold returns_from. cbn [files history] in *.
  rewrite (resolve_decoded _ _ _ _ _ _ Hopen Hdec), Hloop. simpl.
  now rewrite <- !app_assoc.
Qed.

(** C2.  When the definition file cannot be opened, and when it opens but
    does not decode, the resolver returns the one-element list holding the
    definition-file path together with that error. *)
Theorem resolve_unreadable_definition (fuel : nat) (dir : string) (fs : FS) :
  (forall err,
      files fs (def dir) = inr err ->
      returns fs (S fuel) dir ([def dir], Some err) [OpOpen (def dir)])
  /\
  (forall data contents err,
      files fs (def dir) = inl data ->
      yaml_Decode data = (contents, Some err) ->
      returns fs (S fuel) dir ([def dir], Some err)
              [OpOpen (def dir); OpRead (def dir); OpClose (def dir)]).
Proof.
  destruct fs as [fls h]. unfold returns_from. cbn [files history]. split.
  - intros err Hopen. now apply resolve_open_error.
  - intros data contents err Hopen Hdec. now apply resolve_decode_error with data contents.
Qed.

(** C3.  When the bases before the k-th resolve and the k-th fails, the
    resolver returns the error of that call with the definition-file path,
    the closures of the earlier bases and the partial list of the failing
    call; the operations performed are those of these calls between the
    opening and the closing of the definition file, so no later base is
    resolved, and no resources or patches entry is appended. *)
Theorem resolve_base_failure (fuel : nat) (dir : string) (fs : FS)
        (data : string) (contents : kustomization)
        (pre : list string) (base : string) (post : list string)
        (outs : list (list string * list fs_op))
        (partial : list string) (err : error) (tb : list fs_op) :
  files fs (def dir) = inl data ->
  yaml_Decode data = (contents, None) ->
  Bases contents = pre ++ base :: post ->
  Forall2 (fun b o => returns fs fuel (Join dir b) (fst o, None) (snd o)) pre outs ->
  returns fs fuel (Join dir base) (partial, Some err) tb ->
  returns fs (S fuel) dir
          ([def dir] ++ concat (map fst outs) ++ partial, Some err)
          ([OpOpen (def dir); OpRead (def dir)]
             ++ concat (map snd outs) ++ tb ++ [OpClose (def dir)]).
Proof.
  intros Hopen Hdec Hsplit Hpre Hbase.
  assert (Hloop : forall deps h,
             range_Bases Join (resolve fuel) dir (pre ++ base :: post) deps
                         (mkFS (files fs) h)
             = Some ((deps ++ concat (map fst outs) ++ partial, Some err),
                     mkFS (files fs) (h ++ concat (map snd outs) ++ tb))).
  { apply range_Bases_fail.
    - eapply Forall2_impl; [|exact Hpre].
      intros b o H. exact (returns_frame _ _ _ _ _ H).
    - exact (returns_frame _ _ _ _ _ Hbase). }
  destruct fs as [fls h]. unfold returns_from. cbn [files history] in *.
  rewrite (resolve_decoded _ _ _ _ _ _ Hopen Hdec), Hsplit, Hloop. simpl.
  now rewrite <- !app_assoc.
Qed.

(** Whatever a call returns starts with the definition-file path. *)
Lemma resolve_head (fuel : nat) (dir : string) (fs fs' : FS)
      (deps : list string) (err : option error) :
  resolve fuel dir fs = Some ((deps, err), fs') ->
  exists rest, deps = def dir :: rest.
Proof.
  destruct fuel as [|fuel]; [discriminate|].
  destruct fs as [fls h].
  destruct (fls (def dir)) as [data|e] eqn:Hopen.
  - destruct (yaml_Decode data) as [contents [e|]] eqn:Hdec.
    + rewrite (resolve_decode_error fuel _ _ _ _ _ _ Hopen Hdec).
      intros [= <- _ _]. now exists [].
    + rewrite (resolve_decoded fuel _ _ _ _ _ Hopen Hdec).
      destruct (range_Bases Join (resolve fuel) _ _ _ _)
        as [[[deps0 e] fs0]|] eqn:E; [|discriminate].
      apply range_Bases_prefix in E. destruct E as [rest ->].
      destruct e; intros [= <- _ _]; simpl; eauto.
  - rewrite (resolve_open_error fuel _ _ _ _ Hopen).
    intros [= <- _ _]. now exists [].
Qed.

(** C4.  Whatever a call of the resolver returns, with or without error,
    on any directory and from any state (so for the recursive calls too),
    the list is not empty and starts with the definition-file path of the
    directory; and on a hierarchy of nesting depth at most [n] a call with
    room for [n] nested calls does return such a list. *)
Theorem resolve_head_is_definition (fuel : nat) (dir : string) (fs : FS) :
  (forall deps err fs',
      resolve fuel dir fs = Some ((deps, err), fs') ->
      exists rest, deps = def dir :: rest)
  /\
  (forall n,
      nesting_leb Join yaml_Decode (files fs) n dir = true ->
      n <= fuel ->
      exists rest err t, returns fs fuel dir (def dir :: rest, err) t).
Proof.
  split.
  - intros deps err fs'. apply resolve_head.
  - intros n Hn Hle. destruct fs as [fls h]. cbn [files] in Hn.
    destruct (nesting_terminates fls n dir Hn h) as ([deps err] & t & Hrun).
    apply resolve_mono_le with (m := fuel) in Hrun; [|exact Hle].
    destruct (resolve_head _ _ _ _ _ _ Hrun) as [rest ->].
    now exists rest, err, t.
Qed.

(** C9.  When the base references below [dir] are well founded, the
    hierarchy has a finite nesting depth, and with a nesting depth of at
    most [n] the resolver returns within [n] nested calls. *)
Theorem resolve_terminates_when_acyclic (fls : string -> string + error)
        (dir : string) :
  Acc (base_ref Join yaml_Decode fls) dir ->
  (exists n, nesting_leb Join yaml_Decode fls n dir = true)
  /\
  (forall n, nesting_leb Join yaml_Decode fls n dir = true ->
     forall fuel h, n <= fuel ->
     exists r t, returns (mkFS fls h) fuel dir r t).
Proof.
  intros Hacc. split; [now apply acyclic_nesting|].
  intros n Hn fuel h Hle.
  destruct (nesting_terminates fls n dir Hn h) as (r & t & Hrun).
  exists r, t. unfold returns_from. cbn [files history].
  now apply resolve_mono_le with n.
Qed.

(** C10.  A call of the resolver that returns has left the files as they
    were and has only appended opening, reading and closing operations to the
    history.  From any state with the same files, whatever was done before, a
    call on the same directory with at least as much stack returns the same
    list and the same error after the same operations, and a call with any
    stack that returns at all returns exactly that. *)
Theorem resolve_deterministic (fuel1 : nat) (dir : string) (fs1 fs1' fs2 : FS)
        (r1 : list string * option error) :
  resolve fuel1 dir fs1 = Some (r1, fs1') ->
  files fs1 = files fs2 ->
  files fs1' = files fs1 /\
  exists t,
    history fs1' = history fs1 ++ t /\
    (forall fuel2, fuel1 <= fuel2 ->
       resolve fuel2 dir fs2 = Some (r1, mkFS (files fs2) (history fs2 ++ t))) /\
    (forall fuel2 r2 fs2',
       resolve fuel2 dir fs2 = Some (r2, fs2') ->
       r2 = r1 /\ fs2' = mkFS (files fs2) (history fs2 ++ t)).
Proof.
  intros H1 Hfiles.
  destruct (resolve_frame _ _ _ _ _ H1) as (t & -> & Hall).
  destruct fs2 as [fls2 h2]. cbn [files history] in *. rewrite Hfiles in Hall.
  split; [reflexivity|]. exists t. split; [reflexivity|]. split.
  - intros fuel2 Hle. apply resolve_mono_le with fuel1; [exact Hle | apply Hall].
  - intros fuel2 r2 fs2' H2.
    apply resolve_mono_le with (m := Nat.max fuel1 fuel2) in H2; [|lia].
    rewrite (resolve_mono_le fuel1 (Nat.max fuel1 fuel2) _ _ _
               (Nat.le_max_l _ _) (Hall h2)) in H2.
    now injection H2 as <- <-.
Qed.

(** *** How a call of the resolver can return *)

(** What the loop over the bases returned tells about the calls it made,
    when each call of [self] that returns satisfies [Q]. *)
Lemma range_Bases_inv (Q : string -> list string * option error -> list fs_op -> Prop)
      (self : string -> M (list string * option error))
      (dir : string) (fls : string -> string + error) :
  (forall d h r fs',
      self d (mkFS fls h) = Some (r, fs') ->
      exists t, fs' = mkFS fls (h ++ t) /\ Q d r t) ->
  forall bases deps h deps' err fs',
    range_Bases Join self dir bases deps (mkFS fls h) = Some ((deps', err), fs') ->
    exists outs,
      match err with
      | None =>
          Forall2 (fun b o => Q (Join dir b) (fst o, None) (snd o)) bases outs /\
          deps' = deps ++ concat (map fst outs) /\
          fs' = mkFS fls (h ++ concat (map snd outs))
      | Some e =>
          exists pre base post partial tb,
            bases = pre ++ base :: post /\
            Forall2 (fun b o => Q (Join dir b) (fst o, None) (snd o)) pre outs /\
            Q (Join dir base) (partial, Some e) tb /\
            deps' = deps ++ concat (map fst outs) ++ partial /\
            fs' = mkFS fls (h ++ concat (map snd outs) ++ tb)
      end.
Proof.
  intros Hself.
  induction bases as [|base rest IH]; intros deps h deps' err fs'; simpl.
  - unfold ret. intros [= <- <- <-]. exists []. simpl.
    now rewrite !app_nil_r.
  - unfold bind.
    destruct (self (Join dir base) (mkFS fls h)) as [[[baseDeps e] fs1]|] eqn:E;
      [|discriminate].
    apply Hself in E. destruct E as (t & -> & HQ).
    destruct e as [e|].
    + unfold ret. intros [= <- <- <-]. exists [].
      exists [], base, rest, baseDeps, t. simpl. repeat split; auto.
    + intros H. apply IH in H. destruct H as (outs & H).
      exists ((baseDeps, t) :: outs).
      destruct err as [e|].
      * destruct H as (pre & b & post & partial & tb & -> & Hpre & Hb & -> & ->).
        exists (base :: pre), b, post, partial, tb. simpl.
        repeat split; auto.
        -- now rewrite <- !app_assoc.
        -- now rewrite <- !app_assoc.
      * destruct H as (Hall & -> & ->). simpl.
        repeat split; auto.
        -- now rewrite <- !app_assoc.
        -- now rewrite <- !app_assoc.
Qed.

(** A property of returning calls holds of every call that returns when it
    is kept by each of the four ways the resolver returns: the definition
    file does not open; it does not decode; every base resolves; a base
    fails. *)
Lemma resolve_rule (fls : string -> string + error)
      (Q : nat -> string -> list string * option error -> list fs_op -> Prop) :
  (forall n dir err,
      fls (def dir) = inr err ->
      Q (S n) dir ([def dir], Some err) [OpOpen (def dir)]) ->
  (forall n dir data contents err,
      fls (def dir) = inl data ->
      yaml_Decode data = (contents, Some err) ->
      Q (S n) dir ([def dir], Some err)
        [OpOpen (def dir); OpRead (def dir); OpClose (def dir)]) ->
  (forall n dir data contents outs,
      fls (def dir) = inl data ->
      yaml_Decode data = (contents, None) ->
      Forall2 (fun b o => Q n (Join dir b) (fst o, None) (snd o)) (Bases contents) outs ->
      Q (S n) dir
        ([def dir] ++ concat (map fst outs)
                   ++ map (Join dir) (Resources contents)
                   ++ map (Join dir) (Patches contents), None)
        ([OpOpen (def dir); OpRead (def dir)]
           ++ concat (map snd outs) ++ [OpClose (def dir)])) ->
  (forall n dir data contents pre base post outs partial e tb,
      fls (def dir) = inl data ->
      yaml_Decode data = (contents, None) ->
      Bases contents = pre ++ base :: post ->
      Forall2 (fun b o => Q n (Join dir b) (fst o, None) (snd o)) pre outs ->
      Q n (Join dir base) (partial, Some e) tb ->
      Q (S n) dir
        ([def dir] ++ concat (map fst outs) ++ partial, Some e)
        ([OpOpen (def dir); OpRead (def dir)]
           ++ concat (map snd outs) ++ tb ++ [OpClose (def dir)])) ->
  forall fuel dir h r fs',
    resolve fuel dir (mkFS fls h) = Some (r, fs') ->
    exists t, fs' = mkFS fls (h ++ t) /\ Q fuel dir r t.
Proof.
  intros Hopen Hdecode Hsuccess Hfailure.
  induction fuel as [|fuel IH]; intros dir h r fs'; [discriminate|].
  destruct (fls (def dir)) as [data|err] eqn:Eopen.
  - destruct (yaml_Decode data) as [contents [e|]] eqn:Edec.
    + rewrite (resolve_decode_error fuel _ _ _ _ _ _ Eopen Edec).
      intros [= <- <-]. eexists. split; [reflexivity|]. now apply Hdecode with data contents.
    + rewrite (resolve_decoded fuel _ _ _ _ _ Eopen Edec).
      destruct (range_Bases Join (resolve fuel) _ _ _ _)
        as [[[deps err] fs1]|] eqn:E; [|discriminate].
      apply (range_Bases_inv (Q fuel) (resolve fuel) dir fls IH) in E.
      destruct E as (outs & E).
      destruct err as [e|].
      * destruct E as (pre & base & post & partial & tb & Hsplit & Hpre & Hbase & -> & ->).
        intros [= <- <-]. cbn [files history].
        exists ([OpOpen (def dir); OpRead (def dir)]
                  ++ concat (map snd outs) ++ tb ++ [OpClose (def dir)]).
        split; [now rewrite <- !app_assoc|].
        exact (Hfailure fuel dir data contents pre base post outs partial e tb
                         Eopen Edec Hsplit Hpre Hbase).
      * destruct E as (Hall & -> & ->).
        intros [= <- <-]. cbn [files history].
        exists ([OpOpen (def dir); OpRead (def dir)]
                  ++ concat (map snd outs) ++ [OpClose (def dir)]).
        split; [now rewrite <- !app_assoc|].
        exact (Hsuccess fuel dir data contents outs Eopen Edec Hall).
  - rewrite (resolve_open_error fuel _ _ _ _ Eopen).
    intros [= <- <-]. eexists. split; [reflexivity|]. now apply Hopen.
Qed.

Lemma Forall2_in_l (A B : Type) (R : A -> B -> Prop) (l1 : list A) (l2 : list B) :
  Forall2 R l1 l2 -> forall a, In a l1 -> exists b, In b l2 /\ R a b.
Proof.
  induction 1 as [|x y l1 l2 Hxy _ IH]; intros a Ha; [destruct Ha|].
  destruct Ha as [<-|Ha].
  - exists y. split; [now left | exact Hxy].
  - destruct (IH a Ha) as (b & Hb & Hab). exists b. split; [now right | exact Hab].
Qed.

Lemma Forall2_in_r (A B : Type) (R : A -> B -> Prop) (l1 : list A) (l2 : list B) :
  Forall2 R l1 l2 -> forall b, In b l2 -> exists a, In a l1 /\ R a b.
Proof.
  induction 1 as [|x y l1 l2 Hxy _ IH]; intros b Hb; [destruct Hb|].
  destruct Hb as [<-|Hb].
  - exists x. split; [now left | exact Hxy].
  - destruct (IH b Hb) as (a & Ha & Hab). exists a. split; [now right | exact Hab].
Qed.

Lemma Forall2_impl_in (A B : Type) (R S : A -> B -> Prop) (l1 : list A) (l2 : list B) :
  Forall2 R l1 l2 ->
  (forall a b, In b l2 -> R a b -> S a b) ->
  Forall2 S l1 l2.
Proof.
  induction 1 as [|x y l1 l2 Hxy _ IH]; intros Himp; constructor.
  - apply Himp; [now left | exact Hxy].
  - apply IH. intros a b Hb. apply Himp. now right.
Qed.

(** *** Open files *)

Lemma fd_run_app (fls : string -> string + error) (t1 t2 : list fs_op) :
  forall open,
    fd_run fls open (t1 ++ t2)
    = match fd_run fls open t1 with
      | Some open' => fd_run fls open' t2
      | None => None
      end.
Proof.
  induction t1 as [|op t1 IH]; intros open; simpl; [reflexivity|].
  destruct (fd_step fls open op); [apply IH | reflexivity].
Qed.

Lemma fd_run_concat (fls : string -> string + error) (ts : list (list fs_op)) :
  (forall t, In t ts -> forall open, fd_run fls open t = Some open) ->
  forall open, fd_run fls open (concat ts) = Some open.
Proof.
  induction ts as [|t ts IH]; intros Hall open; simpl; [reflexivity|].
  rewrite fd_run_app, (Hall t (or_introl eq_refl)).
  apply IH. intros t' Ht'. apply Hall. now right.
Qed.

Lemma fd_run_traces (fls : string -> string + error)
      (bases : list string) (outs : list (list string * list fs_op)) :
  Forall2 (fun (b : string) (o : list string * list fs_op) =>
             forall open, fd_run fls open (snd o) = Some open) bases outs ->
  forall open, fd_run fls open (concat (map snd outs)) = Some open.
Proof.
  intros Hall. apply fd_run_concat. intros t Ht.
  apply in_map_iff in Ht. destruct Ht as (o & <- & Ho).
  destruct (Forall2_in_r _ _ _ _ _ Hall o Ho) as (b & _ & Hb). exact Hb.
Qed.

(** X5.  A call of the resolver that returns, with or without error, has
    closed every file it opened: its operations read only the file opened
    last, close files in the reverse order of their opening, and leave open
    exactly the files that were open before. *)
Theorem resolve_closes_what_it_opens (fuel : nat) (dir : string) (fs fs' : FS)
        (r : list string * option error) :
  resolve fuel dir fs = Some (r, fs') ->
  exists t,
    history fs' = history fs ++ t /\
    forall open, fd_run (files fs) open t = Some open.
Proof.
  destruct fs as [fls h]. intros H.
  apply (resolve_rule fls
           (fun _ _ _ t => forall open, fd_run fls open t = Some open)) in H.
  - destruct H as (t & -> & Ht). now exists t.
  - intros _ d err Hopen open. simpl. now rewrite Hopen.
  - intros _ d data contents err Hopen _ open. simpl.
    now rewrite Hopen, String.eqb_refl, String.eqb_refl.
  - intros n d data contents outs Hopen _ Hall open.
    simpl. rewrite Hopen, String.eqb_refl, fd_run_app.
    rewrite (fd_run_traces fls _ _ Hall). simpl. now rewrite String.eqb_refl.
  - intros n d data contents pre base post outs partial e tb Hopen _ _ Hall Hbase open.
    simpl. rewrite Hopen, String.eqb_refl, fd_run_app.
    rewrite (fd_run_traces fls _ _ Hall), fd_run_app, Hbase.
    simpl. now rewrite String.eqb_refl.
Qed.

(** X6.  When the resolver returns an error, the last path of the
    returned list is the definition file it failed on, and the error is the
    one that opening or decoding that file gave. *)
Theorem resolve_error_names_failing_file (fuel : nat) (dir : string) (fs fs' : FS)
        (deps : list string) (e : error) :
  resolve fuel dir fs = Some ((deps, Some e), fs') ->
  exists before d,
    deps = before ++ [def d] /\
    (files fs (def d) = inr e \/
     exists data contents,
       files fs (def d) = inl data /\ yaml_Decode data = (contents, Some e)).
Proof.
  destruct fs as [fls h]. intros H. cbn [files].
  apply (resolve_rule fls
           (fun _ _ r _ =>
              forall e, snd r = Some e ->
              exists before d,
                fst r = before ++ [def d] /\
                (fls (def d) = inr e \/
                 exists data contents,
                   fls (def d) = inl data /\ yaml_Decode data = (contents, Some e))))
    in H.
  - destruct H as (_ & _ & H). exact (H e eq_refl).
  - intros _ d err Hopen e0 [= <-]. exists [], d. split; [reflexivity | now left].
  - intros _ d data contents err Hopen Hdec e0 [= <-].
    exists [], d. split; [reflexivity | right; eauto].
  - intros _ d data contents outs _ _ _ e0 [=].
  - intros n d data contents pre base post outs partial e1 tb _ _ _ _ Hbase e0 [= <-].
    destruct (Hbase e1 eq_refl) as (before & d' & Hlast & Hwhy).
    cbn [fst] in *. subst partial.
    exists ([def d] ++ concat (map fst outs) ++ before), d'.
    split; [now rewrite <- !app_assoc | exact Hwhy].
Qed.

(** X7.  Every file the resolver opens, reads or closes is in the list it
    returns, whether it returns an error or not. *)
Theorem resolve_lists_what_it_touches (fuel : nat) (dir : string) (fs fs' : FS)
        (deps : list string) (err : option error) :
  resolve fuel dir fs = Some ((deps, err), fs') ->
  exists t,
    history fs' = history fs ++ t /\
    forall op, In op t ->
      match op with
      | OpOpen p | OpRead p | OpClose p => In p deps
      end.
Proof.
  destruct fs as [fls h]. intros H.
  apply (resolve_rule fls
           (fun _ _ r t =>
              forall op, In op t ->
                match op with
                | OpOpen p | OpRead p | OpClose p => In p (fst r)
                end)) in H.
  - destruct H as (t & -> & Ht). now exists t.
  - intros _ d e _ op [<-|[]]. now left.
  - intros _ d data contents e _ _ op [<-|[<-|[<-|[]]]]; now left.
  - intros n d data contents outs _ _ Hall op Hop. cbn [fst].
    assert (Hin : forall p, In p ([def d] ++ concat (map fst outs)) ->
                            In p ([def d] ++ concat (map fst outs)
                                    ++ map (Join d) (Resources contents)
                                    ++ map (Join d) (Patches contents))).
    { intros p Hp. rewrite app_assoc. apply in_or_app. now left. }
    apply in_app_or in Hop. destruct Hop as [[<-|[<-|[]]]|Hop];
      [apply Hin; now left | apply Hin; now left |].
    apply in_app_or in Hop. destruct Hop as [Hop|[<-|[]]];
      [|apply Hin; now left].
    apply in_concat in Hop. destruct Hop as (t0 & Ht0 & Hop).
    apply in_map_iff in Ht0. destruct Ht0 as (o & <- & Ho).
    destruct (Forall2_in_r _ _ _ _ _ Hall o Ho) as (b & _ & Hb).
    specialize (Hb op Hop). cbn [fst] in Hb.
    assert (Hsub : forall p, In p (fst o) -> In p ([def d] ++ concat (map fst outs))).
    { intros p Hp. apply in_or_app. right. apply in_concat.
      exists (fst o). split; [now apply in_map | exact Hp]. }
    destruct op; apply Hin, Hsub, Hb.
  - intros n d data contents pre base post outs partial e tb _ _ _ Hall Hbase op Hop.
    cbn [fst] in *.
    apply in_app_or in Hop. destruct Hop as [[<-|[<-|[]]]|Hop];
      [now left | now left |].
    apply in_app_or in Hop. destruct Hop as [Hop|Hop].
    + apply in_concat in Hop. destruct Hop as (t0 & Ht0 & Hop).
      apply in_map_iff in Ht0. destruct Ht0 as (o & <- & Ho).
      destruct (Forall2_in_r _ _ _ _ _ Hall o Ho) as (b & _ & Hb).
      specialize (Hb op Hop). cbn [fst] in Hb.
      assert (Hsub : forall p, In p (fst o) ->
                               In p ([def d] ++ concat (map fst outs) ++ partial)).
      { intros p Hp. apply in_or_app. right. apply in_or_app. left.
        apply in_concat. exists (fst o). split; [now apply in_map | exact Hp]. }
      destruct op; apply Hsub, Hb.
    + apply in_app_or in Hop. destruct Hop as [Hop|[<-|[]]]; [|now left].
      specialize (Hbase op Hop).
      assert (Hsub : forall p, In p partial ->
                               In p ([def d] ++ concat (map fst outs) ++ partial)).
      { intros p Hp. apply in_or_app. right. apply in_or_app. now right. }
      destruct op; apply Hsub, Hbase.
Qed.

(** X8.  What the resolver returns depends only on the files it opened:
    on a file system that gives the same for these paths, whatever it holds
    elsewhere (the resources and patches among others), the call returns the
    same list and error after the same operations. *)
Theorem resolve_depends_on_opened_files (fuel : nat) (dir : string) (fs fs' : FS)
        (r : list string * option error) :
  resolve fuel dir fs = Some (r, fs') ->
  exists t,
    history fs' = history fs ++ t /\
    forall fs2,
      (forall p, In (OpOpen p) t -> files fs2 p = files fs p) ->
      resolve fuel dir fs2 = Some (r, mkFS (files fs2) (history fs2 ++ t)).
Proof.
  destruct fs as [fls h]. intros H.
  apply (resolve_rule fls
           (fun n d r t =>
              forall f2, (forall p, In (OpOpen p) t -> f2 p = fls p) ->
              forall h2, resolve n d (mkFS f2 h2) = Some (r, mkFS f2 (h2 ++ t)))) in H.
  - destruct H as (t & -> & Ht). exists t. split; [reflexivity|].
    intros [f2 h2] Hsame. now apply Ht.
  - intros n d e Hopen f2 Hsame h2.
    apply resolve_open_error. rewrite Hsame; [exact Hopen | now left].
  - intros n d data contents e Hopen Hdec f2 Hsame h2.
    apply resolve_decode_error with data contents; [|exact Hdec].
    rewrite Hsame; [exact Hopen | now left].
  - intros n d data contents outs Hopen Hdec Hall f2 Hsame h2.
    assert (Hopen2 : f2 (def d) = inl data)
      by (rewrite Hsame; [exact Hopen | now left]).
    rewrite (resolve_decoded n _ _ _ _ _ Hopen2 Hdec).
    rewrite (range_Bases_ok (resolve n) d f2 (Bases contents) outs).
    + cbn [files history]. now rewrite <- !app_assoc.
    + apply Forall2_impl_in with (1 := Hall). intros b o Ho Hb h0.
      apply Hb. intros p Hp. apply Hsame.
      apply in_or_app. right. apply in_or_app. left.
      apply in_concat. exists (snd o). split; [now apply in_map | exact Hp].
  - intros n d data contents pre base post outs partial e tb Hopen Hdec Hsplit
           Hall Hbase f2 Hsame h2.
    assert (Hopen2 : f2 (def d) = inl data)
      by (rewrite Hsame; [exact Hopen | now left]).
    rewrite (resolve_decoded n _ _ _ _ _ Hopen2 Hdec), Hsplit.
    rewrite (range_Bases_fail (resolve n) d f2 pre outs base post partial e tb).
    + cbn [files history]. now rewrite <- !app_assoc.
    + apply Forall2_impl_in with (1 := Hall). intros b o Ho Hb h0.
      apply Hb. intros p Hp. apply Hsame.
      apply in_or_app. right. apply in_or_app. left.
      apply in_concat. exists (snd o). split; [now apply in_map | exact Hp].
    + intros h0. apply Hbase. intros p Hp. apply Hsame.
      apply in_or_app. right. apply in_or_app. right. apply in_or_app. now left.
Qed.

(** X9.  A call that returns without error can only have done so in the
    way of C1: the definition file opened and decoded, every listed base
    resolved without error, and the list is the definition path, the closures
    of the bases in order, the resources and the patches. *)
Theorem resolve_success_inversion (fuel : nat) (dir : string) (fs fs' : FS)
        (deps : list string) :
  resolve (S fuel) dir fs = Some ((deps, None), fs') ->
  exists data contents outs,
    files fs (def dir) = inl data /\
    yaml_Decode data = (contents, None) /\
    Forall2 (fun base o => returns fs fuel (Join dir base) (fst o, None) (snd o))
            (Bases contents) outs /\
    deps = [def dir] ++ concat (map fst outs)
                     ++ map (Join dir) (Resources contents)
                     ++ map (Join dir) (Patches contents) /\
    history fs' = history fs ++ [OpOpen (def dir); OpRead (def dir)]
                             ++ concat (map snd outs) ++ [OpClose (def dir)].
Proof.
  destruct fs as [fls h]. cbn [files history].
  destruct (fls (def dir)) as [data|err] eqn:Eopen.
  - destruct (yaml_Decode data) as [contents [e|]] eqn:Edec.
    + now rewrite (resolve_decode_error fuel _ _ _ _ _ _ Eopen Edec).
    + rewrite (resolve_decoded fuel _ _ _ _ _ Eopen Edec).
      destruct (range_Bases Join (resolve fuel) _ _ _ _)
        as [[[deps0 err] fs1]|] eqn:E; [|discriminate].
      apply (range_Bases_inv
               (fun d r t => forall h0, resolve fuel d (mkFS fls h0)
                                        = Some (r, mkFS fls (h0 ++ t)))) in E.
      * destruct E as (outs & E). destruct err as [e|]; [discriminate|].
        destruct E as (Hall & -> & ->). intros [= <- <-].
        exists data, contents, outs. cbn [files history].
        repeat split; auto; try (now rewrite <- !app_assoc).
        apply Forall2_impl with (2 := Hall). intros b o Hb.
        unfold returns_from. cbn [files history]. apply Hb.
      * intros d h0 r fs0 Hrun.
        destruct (resolve_frame _ _ _ _ _ Hrun) as (t & -> & Ht).
        exists t. split; [reflexivity | exact Ht].
  - now rewrite (resolve_open_error fuel _ _ _ _ Eopen).
Qed.

(** X10.  A call that returns an error failed in one of three ways: the
    definition file did not open; it opened and did not decode; or it opened
    and decoded, the bases before some base resolved without error and that
    base returned the error, with the partial list that ends the result. *)
Theorem resolve_error_inversion (fuel : nat) (dir : string) (fs fs' : FS)
        (deps : list string) (e : error) :
  resolve (S fuel) dir fs = Some ((deps, Some e), fs') ->
  (files fs (def dir) = inr e /\ deps = [def dir])
  \/
  (exists data contents,
      files fs (def dir) = inl data /\
      yaml_Decode data = (contents, Some e) /\
      deps = [def dir])
  \/
  (exists data contents pre base post outs partial tb,
      files fs (def dir) = inl data /\
      yaml_Decode data = (contents, None) /\
      Bases contents = pre ++ base :: post /\
      Forall2 (fun b o => returns fs fuel (Join dir b) (fst o, None) (snd o)) pre outs /\
      returns fs fuel (Join dir base) (partial, Some e) tb /\
      deps = [def dir] ++ concat (map fst outs) ++ partial).
Proof.
  destruct fs as [fls h]. cbn [files history].
  destruct (fls (def dir)) as [data|err] eqn:Eopen.
  - destruct (yaml_Decode data) as [contents [e0|]] eqn:Edec.
    + rewrite (resolve_decode_error fuel _ _ _ _ _ _ Eopen Edec).
      intros [= <- <- _]. right. left. now exists data, contents.
    + rewrite (resolve_decoded fuel _ _ _ _ _ Eopen Edec).
      destruct (range_Bases Join (resolve fuel) _ _ _ _)
        as [[[deps0 err] fs1]|] eqn:E; [|discriminate].
      apply (range_Bases_inv
               (fun d r t => forall h0, resolve fuel d (mkFS fls h0)
                                        = Some (r, mkFS fls (h0 ++ t)))) in E.
      * destruct E as (outs & E). destruct err as [e0|]; [|discriminate].
        destruct E as (pre & base & post & partial & tb & Hsplit & Hall & Hbase & -> & ->).
        intros [= <- <- _]. right. right.
        exists data, contents, pre, base, post, outs, partial, tb.
        repeat split; auto.
        -- apply Forall2_impl with (2 := Hall). intros b o Hb.
           unfold returns_from. cbn [files history]. apply Hb.
        -- unfold returns_from. cbn [files history]. apply Hbase.
      * intros d h0 r fs0 Hrun.
        destruct (resolve_frame _ _ _ _ _ Hrun) as (t & -> & Ht).
        exists t. split; [reflexivity | exact Ht].
  - rewrite (resolve_open_error fuel _ _ _ _ Eopen).
    intros [= <- <- _]. now left.
Qed.

Lemma nesting_well_founded (fls : string -> string + error) (n : nat) :
  forall dir,
    nesting_leb Join yaml_Decode fls n dir = true ->
    Acc (base_ref Join yaml_Decode fls) dir.
Proof.
  induction n as [|n IH]; intros dir H; [discriminate|].
  simpl in H. rewrite forallb_forall in H.
  constructor. intros child Hchild. apply IH, H, Hchild.
Qed.

(** X11.  The resolver returns without error only on a hierarchy without
    cycles below [dir]: the base references are well founded, and the
    hierarchy is nested no deeper than the stack the call had. *)
Theorem resolve_success_well_founded (fuel : nat) (dir : string) (fs fs' : FS)
        (deps : list string) :
  resolve fuel dir fs = Some ((deps, None), fs') ->
  nesting_leb Join yaml_Decode (files fs) fuel dir = true /\
  Acc (base_ref Join yaml_Decode (files fs)) dir.
Proof.
  destruct fs as [fls h]. cbn [files]. intros H.
  assert (Hn : nesting_leb Join yaml_Decode fls fuel dir = true).
  { apply (resolve_rule fls
             (fun n d r _ => snd r = None ->
                             nesting_leb Join yaml_Decode fls n d = true)) in H.
    - destruct H as (_ & _ & H). now apply H.
    - intros _ d e _ [=].
    - intros _ d data contents e _ _ [=].
    - intros n d data contents outs Hopen Hdec Hall _.
      simpl. unfold bases_of. rewrite Hopen, Hdec.
      apply forallb_forall. intros x Hx.
      apply in_map_iff in Hx. destruct Hx as (b & <- & Hb).
      destruct (Forall2_in_l _ _ _ _ _ Hall b Hb) as (o & _ & Ho).
      now apply Ho.
    - intros n d data contents pre base post outs partial e tb _ _ _ _ _ [=]. }
  split; [exact Hn | now apply nesting_well_founded with fuel].
Qed.



End ResolverProperties.

(* ================================================================== *)
(** ** Properties of the pipeline *)

Section PipelineProperties.

Variables Context Writer World KubectlFlags build_Artifact Artifact : Type.

Variable util_RunCmdOut : Cmd Context -> World -> (bytes * option error) * World.
Variable ManifestList_Append : ManifestList -> bytes -> ManifestList.
Variable ManifestList_ReplaceImages :
  ManifestList -> list build_Artifact -> ManifestList * option error.
Variable CLI_Apply :
  CLI KubectlFlags -> Context -> Writer -> ManifestList -> World ->
  (ManifestList * option error) * World.
Variable CLI_Delete :
  CLI KubectlFlags -> Context -> Writer -> ManifestList -> World -> option error * World.
Variable parseManifestsForDeploys : ManifestList -> list Artifact * option error.

Variable Join : string -> string -> string.
Variable yaml_Decode : string -> kustomization * option error.

Local Abbreviation System := (Sys Context World KubectlFlags build_Artifact).
Local Abbreviation render :=
  (readManifests (build_Artifact := build_Artifact) util_RunCmdOut ManifestList_Append).
Local Abbreviation deploy :=
  (Deploy util_RunCmdOut ManifestList_Append ManifestList_ReplaceImages
          CLI_Apply parseManifestsForDeploys).
Local Abbreviation cleanup :=
  (Cleanup (build_Artifact := build_Artifact) util_RunCmdOut ManifestList_Append CLI_Delete).
Local Abbreviation Run k ctx :=
  (CallRunCmdOut KubectlFlags build_Artifact
     (exec_CommandContext ctx "kustomize" ["build"; KustomizePath (cfg k)])).
Local Abbreviation Replace m builds := (CallReplaceImages Context KubectlFlags m builds).
Local Abbreviation Apply k m := (CallApply Context build_Artifact (kubectl k) m).
Local Abbreviation Delete k m := (CallDelete Context build_Artifact (kubectl k) m).

(** Rendering runs the renderer once and does nothing else. *)
Lemma readManifests_state (k : KustomizeDeployer KubectlFlags) (ctx : Context)
      (s s' : System) (r : ManifestList * option error) :
  render k ctx s = (r, s') ->
  calls s' = calls s ++ [Run k ctx].
Proof.
  unfold readManifests, pbind, call, pret.
  destruct (util_RunCmdOut _ (world s)) as [[o [e|]] w]; now intros [= _ <-].
Qed.

(** A failed rendering carries the error of the renderer, annotated. *)
Lemma readManifests_error (k : KustomizeDeployer KubectlFlags) (ctx : Context)
      (s : System) (o : bytes) (e : error) (w : World) :
  util_RunCmdOut (exec_CommandContext ctx "kustomize" ["build"; KustomizePath (cfg k)])
                 (world s) = ((o, Some e), w) ->
  render k ctx s
  = (([], Some (withMessage e "kustomize build")), mkSys w (calls s ++ [Run k ctx])).
Proof.
  intros H. unfold readManifests, pbind, call, pret. now rewrite H.
Qed.

Lemma Deploy_render_failed (k : KustomizeDeployer KubectlFlags) (ctx : Context)
      (out : Writer) (builds : list build_Artifact) (s s' : System)
      (m : ManifestList) (e : error) :
  render k ctx s = ((m, Some e), s') ->
  deploy k ctx out builds s = (([], Some (withMessage e "reading manifests")), s').
Proof.
  intros H. unfold Deploy, pbind. now rewrite H.
Qed.

Lemma Deploy_replace_failed (k : KustomizeDeployer KubectlFlags) (ctx : Context)
      (out : Writer) (builds : list build_Artifact) (s s' : System)
      (m m' : ManifestList) (e : error) :
  render k ctx s = ((m, None), s') ->
  length m <> 0 ->
  ManifestList_ReplaceImages m builds = (m', Some e) ->
  deploy k ctx out builds s
  = (([], Some (withMessage e "replacing images in manifests")),
     mkSys (world s') (calls s ++ [Run k ctx; Replace m builds])).
Proof.
  intros H Hlen Hrep. unfold Deploy, pbind.
  rewrite H. apply readManifests_state in H.
  destruct (Nat.eqb_spec (length m) 0) as [|_]; [contradiction|].
  unfold call, pret. rewrite Hrep, H. now rewrite <- app_assoc.
Qed.

Lemma Deploy_apply_failed (k : KustomizeDeployer KubectlFlags) (ctx : Context)
      (out : Writer) (builds : list build_Artifact) (s s' : System)
      (m m' updated : ManifestList) (e : error) (w : World) :
  render k ctx s = ((m, None), s') ->
  length m <> 0 ->
  ManifestList_ReplaceImages m builds = (m', None) ->
  CLI_Apply (kubectl k) ctx out m' (world s') = ((updated, Some e), w) ->
  deploy k ctx out builds s
  = (([], Some (withMessage e "apply")),
     mkSys w (calls s ++ [Run k ctx; Replace m builds; Apply k m'])).
Proof.
  intros H Hlen Hrep Happly. unfold Deploy, pbind.
  rewrite H. apply readManifests_state in H.
  destruct (Nat.eqb_spec (length m) 0) as [|_]; [contradiction|].
  unfold call, pret. rewrite Hrep. cbn [world calls]. rewrite Happly, H.
  now rewrite <- !app_assoc.
Qed.

Lemma Cleanup_render_failed (k : KustomizeDeployer KubectlFlags) (ctx : Context)
      (out : Writer) (s s' : System) (m : ManifestList) (e : error) :
  render k ctx s = ((m, Some e), s') ->
  cleanup k ctx out s = (Some (withMessage e "reading manifests"), s').
Proof.
  intros H. unfold Cleanup, pbind. now rewrite H.
Qed.

Lemma Cleanup_rendered (k : KustomizeDeployer KubectlFlags) (ctx : Context)
      (out : Writer) (s s' : System) (m : ManifestList)
      (derr : option error) (w : World) :
  render k ctx s = ((m, None), s') ->
  CLI_Delete (kubectl k) ctx out m (world s') = (derr, w) ->
  cleanup k ctx out s
  = (match derr with
     | Some e => Some (withMessage e "delete")
     | None => None
     end,
     mkSys w (calls s ++ [Run k ctx; Delete k m])).
Proof.
  intros H Hdel. unfold Cleanup, pbind.
  rewrite H. apply readManifests_state in H.
  unfold call, pret. rewrite Hdel, H.
  destruct derr; now rewrite <- app_assoc.
Qed.

(** C5.  When rendering succeeds with an empty collection, [Deploy]
    returns no result and no error, and the renderer is the only collaborator
    that was called: neither image replacement nor apply. *)
Theorem Deploy_nothing_rendered (k : KustomizeDeployer KubectlFlags) (ctx : Context)
        (out : Writer) (builds : list build_Artifact) (s s' : System)
        (m : ManifestList) :
  render k ctx s = ((m, None), s') ->
  length m = 0 ->
  deploy k ctx out builds s = (([], None), s') /\
  calls s' = calls s ++ [Run k ctx].
Proof.
  intros H Hlen. split; [|now apply readManifests_state in H].
  unfold Deploy, pbind. now rewrite H, Hlen.
Qed.

(** C6.  A failing stage of [Deploy] ends the call with no result and an
    error, and no later stage runs: after a failed rendering only the
    renderer was called; after a failed image replacement, the renderer and
    the replacement; after a failed apply, these and apply, and nothing is
    parsed into results. *)
Theorem Deploy_failure_aborts (k : KustomizeDeployer KubectlFlags) (ctx : Context)
        (out : Writer) (builds : list build_Artifact) (s : System) :
  (forall m e s',
      render k ctx s = ((m, Some e), s') ->
      deploy k ctx out builds s = (([], Some (withMessage e "reading manifests")), s') /\
      calls s' = calls s ++ [Run k ctx])
  /\
  (forall m s' m' e,
      render k ctx s = ((m, None), s') ->
      length m <> 0 ->
      ManifestList_ReplaceImages m builds = (m', Some e) ->
      deploy k ctx out builds s
      = (([], Some (withMessage e "replacing images in manifests")),
         mkSys (world s') (calls s ++ [Run k ctx; Replace m builds])))
  /\
  (forall m s' m' updated e w,
      render k ctx s = ((m, None), s') ->
      length m <> 0 ->
      ManifestList_ReplaceImages m builds = (m', None) ->
      CLI_Apply (kubectl k) ctx out m' (world s') = ((updated, Some e), w) ->
      deploy k ctx out builds s
      = (([], Some (withMessage e "apply")),
         mkSys w (calls s ++ [Run k ctx; Replace m builds; Apply k m']))).
Proof.
  split; [|split].
  - intros m e s' H. split.
    + now apply Deploy_render_failed with m.
    + now apply readManifests_state in H.
  - intros m s' m' e H Hlen Hrep. eapply Deploy_replace_failed; eassumption.
  - intros m s' m' updated e w H Hlen Hrep Happly.
    eapply Deploy_apply_failed; eassumption.
Qed.

(** C8.  [Cleanup] after a failed rendering returns the annotated error
    and calls nothing but the renderer.  After a successful rendering,
    empty or not, it hands the rendered collection as it is to delete, with
    no image replacement in between, and returns the annotated error of
    delete, or nil when delete succeeds. *)
Theorem Cleanup_renders_then_deletes (k : KustomizeDeployer KubectlFlags)
        (ctx : Context) (out : Writer) (s : System) :
  (forall m e s',
      render k ctx s = ((m, Some e), s') ->
      cleanup k ctx out s = (Some (withMessage e "reading manifests"), s') /\
      calls s' = calls s ++ [Run k ctx])
  /\
  (forall m s' derr w,
      render k ctx s = ((m, None), s') ->
      CLI_Delete (kubectl k) ctx out m (world s') = (derr, w) ->
      cleanup k ctx out s
      = (match derr with
         | Some e => Some (withMessage e "delete")
         | None => None
         end,
         mkSys w (calls s ++ [Run k ctx; Delete k m]))).
Proof.
  split.
  - intros m e s' H. split.
    + now apply Cleanup_render_failed with m.
    + now apply readManifests_state in H.
  - intros m s' derr w H Hdel. eapply Cleanup_rendered; eassumption.
Qed.

(** *** The whole of a deploy and of a cleanup *)

Local Abbreviation Parse u := (CallParse Context KubectlFlags build_Artifact u).

(** X1.  When rendering gives manifests, image replacement succeeds and
    apply succeeds, [Deploy] applies what the replacement returned, parses
    what apply returned, and returns the result and the error of the parsing
    as they are; the four collaborators are called once each, in this order. *)
Theorem Deploy_applies_and_parses (k : KustomizeDeployer KubectlFlags) (ctx : Context)
        (out : Writer) (builds : list build_Artifact) (s s' : System)
        (m m' updated : ManifestList) (w : World) :
  render k ctx s = ((m, None), s') ->
  length m <> 0 ->
  ManifestList_ReplaceImages m builds = (m', None) ->
  CLI_Apply (kubectl k) ctx out m' (world s') = ((updated, None), w) ->
  deploy k ctx out builds s
  = (parseManifestsForDeploys updated,
     mkSys w (calls s ++ [Run k ctx; Replace m builds; Apply k m'; Parse updated])).
Proof.
  intros H Hlen Hrep Happly. unfold Deploy, pbind.
  rewrite H. apply readManifests_state in H.
  destruct (Nat.eqb_spec (length m) 0) as [|_]; [contradiction|].
  unfold call, pret. rewrite Hrep. cbn [world calls]. rewrite Happly, H.
  cbn [world calls]. now rewrite <- !app_assoc.
Qed.



(** X4.  Whatever the collaborators do, [Cleanup] calls the renderer and
    then at most delete, with the deployer's CLI and the rendered list; it
    calls nothing else, and it returns no error only when delete was called
    and succeeded. *)
Theorem Cleanup_call_order (k : KustomizeDeployer KubectlFlags) (ctx : Context)
        (out : Writer) (s : System) :
  (calls (snd (cleanup k ctx out s)) = calls s ++ [Run k ctx] /\
   fst (cleanup k ctx out s) <> None)
  \/
  (exists m,
      fst (render k ctx s) = (m, None) /\
      calls (snd (cleanup k ctx out s)) = calls s ++ [Run k ctx; Delete k m] /\
      fst (cleanup k ctx out s)
      = errors_Wrap (fst (CLI_Delete (kubectl k) ctx out m
                                     (world (snd (render k ctx s))))) "delete").
Proof.
  unfold Cleanup, readManifests, pbind, call, pret.
  destruct (util_RunCmdOut _ (world s)) as [[o [e|]] w].
  - left. now split.
  - right. exists (ManifestList_Append [] o). cbn [fst snd world calls].
    destruct (CLI_Delete _ _ _ _ w) as [[e|] w']; cbn [fst snd calls];
      repeat split; now rewrite <- app_assoc.
Qed.

(** X13.  The dependencies of a deployer made by [NewKustomizeDeployer]
    are those of the path of its configuration: the list starts with the
    [kustomization.yaml] of that path, and it is the same whatever kube
    context and namespace the deployer was made with. *)
Theorem Dependencies_of_new_deployer (c : KustomizeDeploy KubectlFlags)
        (kubeContext namespace : string) (fuel : nat) (fs fs' : FS)
        (deps : list string) (err : option error) :
  Dependencies Join yaml_Decode (NewKustomizeDeployer c kubeContext namespace) fuel fs
  = Some ((deps, err), fs') ->
  (exists rest, deps = Join (KustomizePath c) "kustomization.yaml" :: rest) /\
  files fs' = files fs /\
  forall kubeContext' namespace',
    Dependencies Join yaml_Decode (NewKustomizeDeployer c kubeContext' namespace') fuel fs
    = Some ((deps, err), fs').
Proof.
  unfold Dependencies, NewKustomizeDeployer. cbn [cfg KustomizePath].
  intros H. split; [|split].
  - exact (resolve_head Join yaml_Decode _ _ _ _ _ _ H).
  - destruct (resolve_frame Join yaml_Decode _ _ _ _ _ H) as (t & -> & _).
    reflexivity.
  - intros _ _. exact H.
Qed.

(** *** Which errors are annotated *)

(** C7, amended.  The stages of the pipeline return the error of the
    collaborator annotated with the stage: a renderer error under
    "kustomize build" and then "reading manifests", in [Deploy] and in
    [Cleanup]; an image-replacement error under "replacing images in
    manifests"; an apply error under "apply"; a delete error under "delete".
    The resolver returns the error of opening and the error of decoding as
    they are, without annotation. *)
Theorem pipeline_annotates_resolver_does_not
        (k : KustomizeDeployer KubectlFlags) (ctx : Context) (out : Writer)
        (builds : list build_Artifact) (s : System) :
  (forall o e w,
      util_RunCmdOut (exec_CommandContext ctx "kustomize" ["build"; KustomizePath (cfg k)])
                     (world s) = ((o, Some e), w) ->
      fst (deploy k ctx out builds s)
      = ([], Some (withMessage (withMessage e "kustomize build") "reading manifests")) /\
      fst (cleanup k ctx out s)
      = Some (withMessage (withMessage e "kustomize build") "reading manifests"))
  /\
  (forall m s' m' e,
      render k ctx s = ((m, None), s') ->
      length m <> 0 ->
      ManifestList_ReplaceImages m builds = (m', Some e) ->
      fst (deploy k ctx out builds s)
      = ([], Some (withMessage e "replacing images in manifests")))
  /\
  (forall m s' m' updated e w,
      render k ctx s = ((m, None), s') ->
      length m <> 0 ->
      ManifestList_ReplaceImages m builds = (m', None) ->
      CLI_Apply (kubectl k) ctx out m' (world s') = ((updated, Some e), w) ->
      fst (deploy k ctx out builds s) = ([], Some (withMessage e "apply")))
  /\
  (forall m s' e w,
      render k ctx s = ((m, None), s') ->
      CLI_Delete (kubectl k) ctx out m (world s') = (Some e, w) ->
      fst (cleanup k ctx out s) = Some (withMessage e "delete"))
  /\
  (forall fuel dir fs e,
      files fs (defpath Join dir) = inr e ->
      exists t, returns_from Join yaml_Decode fs (S fuel) dir
                             ([defpath Join dir], Some e) t)
  /\
  (forall fuel dir fs data contents e,
      files fs (defpath Join dir) = inl data ->
      yaml_Decode data = (contents, Some e) ->
      exists t, returns_from Join yaml_Decode fs (S fuel) dir
                             ([defpath Join dir], Some e) t).
Proof.
  repeat apply conj.
  - intros o e w H. apply readManifests_error in H. split.
    + now rewrite (Deploy_render_failed _ _ out builds _ _ _ _ H).
    + now rewrite (Cleanup_render_failed _ _ out _ _ _ _ H).
  - intros m s' m' e H Hlen Hrep.
    now rewrite (Deploy_replace_failed _ _ out _ _ _ _ _ _ H Hlen Hrep).
  - intros m s' m' updated e w H Hlen Hrep Happly.
    now rewrite (Deploy_apply_failed _ _ _ _ _ _ _ _ _ _ _ H Hlen Hrep Happly).
  - intros m s' e w H Hdel.
    now rewrite (Cleanup_rendered _ _ _ _ _ _ _ _ H Hdel).
  - intros fuel dir [fls h] e Hopen. eexists. unfold returns_from.
    cbn [files history] in *. now apply resolve_open_error.
  - intros fuel dir [fls h] data contents e Hopen Hdec. eexists. unfold returns_from.
    cbn [files history] in *. now apply resolve_decode_error with data contents.
Qed.

End PipelineProperties.

(** An error is never an annotation of itself. *)
Lemma wrapped_deeper (cause e : error) :
  wrapped cause e -> wrap_depth cause < wrap_depth e.
Proof. induction 1; simpl; lia. Qed.

Lemma not_wrapped_self (e : error) : ~ wrapped e e.
Proof. intros H. apply wrapped_deeper in H. lia. Qed.

(* ================================================================== *)
(** ** The statements on the example tree and collaborators *)

(** [filepath.Join] on the examples of the documentation of Go's [path]
    package, and on paths that climb. *)
Example Join_examples :
  filepath.Join "a" "b/c" = "a/b/c" /\
  filepath.Join "a/b" "c" = "a/b/c" /\
  filepath.Join "a/b" "../../../xyz" = "../xyz" /\
  filepath.Join "" "" = "" /\
  filepath.Join "a" "" = "a" /\
  filepath.Join "" "a" = "a" /\
  filepath.Join "/" "a" = "/a" /\
  filepath.Join "/.." "a" = "/a" /\
  filepath.Join "loop" "." = "loop" /\
  filepath.Join "broken" "../app/base" = "app/base".
Proof. repeat split. Qed.

(** [Dependencies] only reads the path out of the deployer. *)
Lemma Dependencies_unfold (KubectlFlags : Type)
      (Join : string -> string -> string)
      (yaml_Decode : string -> kustomization * option error)
      (k : KustomizeDeployer KubectlFlags) (fuel : nat) :
  Dependencies Join yaml_Decode k fuel
  = dependenciesForKustomization Join yaml_Decode fuel (KustomizePath (cfg k)).
Proof. reflexivity. Qed.

(** An overlay that lists itself as a base: the resolver does not return,
    whatever the stack allowed. *)
Lemma self_base_never_returns (fuel : nat) :
  forall h, Demo.resolve fuel "loop" (mkFS Demo.tree h) = None.
Proof.
  induction fuel as [|fuel IH]; intros h; [reflexivity|].
  unfold Demo.resolve in *.
  rewrite (resolve_decoded filepath.Join Demo.decode fuel "loop" Demo.tree h
             Demo.loop_yaml (mkKustomization ["."] [] []) eq_refl eq_refl).
  cbn [Bases range_Bases]. unfold bind.
  change (filepath.Join "loop" ".") with "loop".
  now rewrite IH.
Qed.

Lemma resolve_success_closure_witness :
  returns_from filepath.Join Demo.decode Demo.fs0 2 "app"
    (["app/kustomization.yaml";
      "app/base/kustomization.yaml"; "app/base/r.yaml";
      "app/a.yaml"; "app/b.yaml"; "app/p.yaml"], None)
    [OpOpen "app/kustomization.yaml"; OpRead "app/kustomization.yaml";
     OpOpen "app/base/kustomization.yaml"; OpRead "app/base/kustomization.yaml";
     OpClose "app/base/kustomization.yaml";
     OpClose "app/kustomization.yaml"].
Proof.
  apply (resolve_success_closure filepath.Join Demo.decode 1 "app" Demo.fs0
           Demo.app_yaml
           (mkKustomization ["base"] ["a.yaml"; "b.yaml"] ["p.yaml"])
           [(["app/base/kustomization.yaml"; "app/base/r.yaml"],
             [OpOpen "app/base/kustomization.yaml";
              OpRead "app/base/kustomization.yaml";
              OpClose "app/base/kustomization.yaml"])]).
  - reflexivity.
  - reflexivity.
  - constructor; [reflexivity | constructor].
Defined.

Lemma resolve_unreadable_definition_witness :
  returns_from filepath.Join Demo.decode Demo.fs0 1 "nowhere"
    (["nowhere/kustomization.yaml"], Some (Demo.ENOENT "nowhere/kustomization.yaml"))
    [OpOpen "nowhere/kustomization.yaml"]
  /\
  returns_from filepath.Join Demo.decode Demo.fs0 1 "bad"
    (["bad/kustomization.yaml"], Some Demo.yaml_error)
    [OpOpen "bad/kustomization.yaml"; OpRead "bad/kustomization.yaml";
     OpClose "bad/kustomization.yaml"].
Proof.
  split.
  - apply (proj1 (resolve_unreadable_definition filepath.Join Demo.decode 0
                    "nowhere" Demo.fs0)).
    reflexivity.
  - apply (proj2 (resolve_unreadable_definition filepath.Join Demo.decode 0
                    "bad" Demo.fs0))
      with (data := Demo.bad_yaml) (contents := kustomization_zero);
      reflexivity.
Defined.

Lemma resolve_base_failure_witness :
  returns_from filepath.Join Demo.decode Demo.fs0 2 "broken"
    (["broken/kustomization.yaml";
      "app/base/kustomization.yaml"; "app/base/r.yaml";
      "broken/gone/kustomization.yaml"],
     Some (Demo.ENOENT "broken/gone/kustomization.yaml"))
    [OpOpen "broken/kustomization.yaml"; OpRead "broken/kustomization.yaml";
     OpOpen "app/base/kustomization.yaml"; OpRead "app/base/kustomization.yaml";
     OpClose "app/base/kustomization.yaml";
     OpOpen "broken/gone/kustomization.yaml";
     OpClose "broken/kustomization.yaml"].
Proof.
  apply (resolve_base_failure filepath.Join Demo.decode 1 "broken" Demo.fs0
           Demo.broken_yaml
           (mkKustomization ["../app/base"; "gone"; "../loop"] ["x.yaml"] [])
           ["../app/base"] "gone" ["../loop"]
           [(["app/base/kustomization.yaml"; "app/base/r.yaml"],
             [OpOpen "app/base/kustomization.yaml";
              OpRead "app/base/kustomization.yaml";
              OpClose "app/base/kustomization.yaml"])]
           ["broken/gone/kustomization.yaml"]
           (Demo.ENOENT "broken/gone/kustomization.yaml")
           [OpOpen "broken/gone/kustomization.yaml"]).
  - reflexivity.
  - reflexivity.
  - reflexivity.
  - constructor; [reflexivity | constructor].
  - reflexivity.
Defined.

Lemma resolve_head_is_definition_witness :
  (exists rest,
      ["broken/kustomization.yaml";
       "app/base/kustomization.yaml"; "app/base/r.yaml";
       "broken/gone/kustomization.yaml"]
      = defpath filepath.Join "broken" :: rest)
  /\
  (exists rest err t,
      returns_from filepath.Join Demo.decode Demo.fs0 3 "app"
                   (defpath filepath.Join "app" :: rest, err) t).
Proof.
  split.
  - apply (proj1 (resolve_head_is_definition filepath.Join Demo.decode 2 "broken"
                    Demo.fs0))
      with (err := Some (Demo.ENOENT "broken/gone/kustomization.yaml"))
           (fs' := mkFS Demo.tree
                     [OpOpen "broken/kustomization.yaml";
                      OpRead "broken/kustomization.yaml";
                      OpOpen "app/base/kustomization.yaml";
                      OpRead "app/base/kustomization.yaml";
                      OpClose "app/base/kustomization.yaml";
                      OpOpen "broken/gone/kustomization.yaml";
                      OpClose "broken/kustomization.yaml"]).
    reflexivity.
  - apply (proj2 (resolve_head_is_definition filepath.Join Demo.decode 3 "app"
                    Demo.fs0)) with (n := 2).
    + reflexivity.
    + lia.
Defined.

Lemma resolve_terminates_when_acyclic_witness :
  (exists n, nesting_leb filepath.Join Demo.decode Demo.tree n "app" = true)
  /\
  (forall n, nesting_leb filepath.Join Demo.decode Demo.tree n "app" = true ->
     forall fuel h, n <= fuel ->
     exists r t, returns_from filepath.Join Demo.decode (mkFS Demo.tree h) fuel "app" r t).
Proof.
  apply (resolve_terminates_when_acyclic filepath.Join Demo.decode Demo.tree "app").
  constructor. intros child Hchild.
  unfold base_ref in Hchild. vm_compute in Hchild.
  destruct Hchild as [<-|[]].
  constructor. intros child Hchild.
  unfold base_ref in Hchild. vm_compute in Hchild.
  destruct Hchild.
Defined.

Lemma resolve_deterministic_witness :
  Demo.tree = Demo.tree /\
  exists t,
    [OpOpen "app/base/kustomization.yaml"; OpRead "app/base/kustomization.yaml";
     OpClose "app/base/kustomization.yaml"] = [] ++ t /\
    (forall fuel2, 1 <= fuel2 ->
       Demo.resolve fuel2 "app/base"
                    (mkFS Demo.tree [OpOpen "nowhere/kustomization.yaml"])
       = Some ((["app/base/kustomization.yaml"; "app/base/r.yaml"], None),
               mkFS Demo.tree ([OpOpen "nowhere/kustomization.yaml"] ++ t))) /\
    (forall fuel2 r2 fs2',
       Demo.resolve fuel2 "app/base"
                    (mkFS Demo.tree [OpOpen "nowhere/kustomization.yaml"])
       = Some (r2, fs2') ->
       r2 = (["app/base/kustomization.yaml"; "app/base/r.yaml"], None) /\
       fs2' = mkFS Demo.tree ([OpOpen "nowhere/kustomization.yaml"] ++ t)).
Proof.
  apply (resolve_deterministic filepath.Join Demo.decode 1 "app/base"
           Demo.fs0
           (mkFS Demo.tree
                 [OpOpen "app/base/kustomization.yaml";
                  OpRead "app/base/kustomization.yaml";
                  OpClose "app/base/kustomization.yaml"])
           (mkFS Demo.tree [OpOpen "nowhere/kustomization.yaml"])
           (["app/base/kustomization.yaml"; "app/base/r.yaml"], None)).
  - reflexivity.
  - reflexivity.
Defined.

Lemma Deploy_nothing_rendered_witness :
  Demo.deploy (Demo.deployer "empty" "default") ["img"] Demo.sys0
  = (([], None),
     mkSys 0 [CallRunCmdOut unit string
                (exec_CommandContext tt "kustomize" ["build"; "empty"])])
  /\
  [CallRunCmdOut unit string (exec_CommandContext tt "kustomize" ["build"; "empty"])]
  = [] ++ [CallRunCmdOut unit string
             (exec_CommandContext tt "kustomize" ["build"; "empty"])].
Proof.
  apply (Deploy_nothing_rendered unit unit nat unit string bytes Demo.RunCmdOut Demo.Append Demo.ReplaceImages
           Demo.Apply Demo.parse (Demo.deployer "empty" "default") tt tt ["img"]
           Demo.sys0
           (mkSys 0 [CallRunCmdOut unit string
                       (exec_CommandContext tt "kustomize" ["build"; "empty"])])
           []).
  - reflexivity.
  - reflexivity.
Defined.

Lemma Deploy_failure_aborts_witness :
  Demo.deploy (Demo.deployer "fail" "default") ["img"] Demo.sys0
  = (([], Some (withMessage (withMessage Demo.exit_error "kustomize build")
                            "reading manifests")),
     mkSys 0 [CallRunCmdOut unit string
                (exec_CommandContext tt "kustomize" ["build"; "fail"])])
  /\
  Demo.deploy (Demo.deployer "app" "default") ["bad"] Demo.sys0
  = (([], Some (withMessage Demo.image_error "replacing images in manifests")),
     mkSys 0 [CallRunCmdOut unit string
                (exec_CommandContext tt "kustomize" ["build"; "app"]);
              CallReplaceImages unit unit [Demo.deployment] ["bad"]])
  /\
  Demo.deploy (Demo.deployer "app" "locked") ["img"] Demo.sys0
  = (([], Some (withMessage Demo.apply_error "apply")),
     mkSys 0 [CallRunCmdOut unit string
                (exec_CommandContext tt "kustomize" ["build"; "app"]);
              CallReplaceImages unit unit [Demo.deployment] ["img"];
              CallApply unit string (kubectl (Demo.deployer "app" "locked"))
                        [Demo.deployment]]).
Proof.
  split; [|split].
  - apply (proj1 (Deploy_failure_aborts unit unit nat unit string bytes Demo.RunCmdOut Demo.Append Demo.ReplaceImages
                    Demo.Apply Demo.parse (Demo.deployer "fail" "default") tt tt
                    ["img"] Demo.sys0)) with (m := []).
    reflexivity.
  - apply (proj1 (proj2 (Deploy_failure_aborts unit unit nat unit string bytes Demo.RunCmdOut Demo.Append
                           Demo.ReplaceImages Demo.Apply Demo.parse
                           (Demo.deployer "app" "default") tt tt ["bad"] Demo.sys0)))
      with (s' := mkSys 0 [CallRunCmdOut unit string
                             (exec_CommandContext tt "kustomize" ["build"; "app"])])
           (m' := []).
    + reflexivity.
    + discriminate.
    + reflexivity.
  - apply (proj2 (proj2 (Deploy_failure_aborts unit unit nat unit string bytes Demo.RunCmdOut Demo.Append
                           Demo.ReplaceImages Demo.Apply Demo.parse
                           (Demo.deployer "app" "locked") tt tt ["img"] Demo.sys0)))
      with (m := [Demo.deployment])
           (s' := mkSys 0 [CallRunCmdOut unit string
                             (exec_CommandContext tt "kustomize" ["build"; "app"])])
           (updated := []).
    + reflexivity.
    + discriminate.
    + reflexivity.
    + reflexivity.
Defined.

Lemma Cleanup_renders_then_deletes_witness :
  Demo.cleanup (Demo.deployer "fail" "default") Demo.sys0
  = (Some (withMessage (withMessage Demo.exit_error "kustomize build")
                       "reading manifests"),
     mkSys 0 [CallRunCmdOut unit string
                (exec_CommandContext tt "kustomize" ["build"; "fail"])])
  /\
  Demo.cleanup (Demo.deployer "empty" "default") Demo.sys0
  = (None,
     mkSys 1 [CallRunCmdOut unit string
                (exec_CommandContext tt "kustomize" ["build"; "empty"]);
              CallDelete unit string (kubectl (Demo.deployer "empty" "default")) []])
  /\
  Demo.cleanup (Demo.deployer "app" "locked") Demo.sys0
  = (Some (withMessage Demo.delete_error "delete"),
     mkSys 0 [CallRunCmdOut unit string
                (exec_CommandContext tt "kustomize" ["build"; "app"]);
              CallDelete unit string (kubectl (Demo.deployer "app" "locked"))
                         [Demo.deployment]]).
Proof.
  split; [|split].
  - apply (proj1 (Cleanup_renders_then_deletes unit unit nat unit string
                    Demo.RunCmdOut Demo.Append Demo.Delete
                    (Demo.deployer "fail" "default") tt tt Demo.sys0)) with (m := []).
    reflexivity.
  - apply (proj2 (Cleanup_renders_then_deletes unit unit nat unit string
                    Demo.RunCmdOut Demo.Append Demo.Delete
                    (Demo.deployer "empty" "default") tt tt Demo.sys0))
      with (s' := mkSys 0 [CallRunCmdOut unit string
                             (exec_CommandContext tt "kustomize" ["build"; "empty"])])
           (derr := None).
    + reflexivity.
    + reflexivity.
  - apply (proj2 (Cleanup_renders_then_deletes unit unit nat unit string
                    Demo.RunCmdOut Demo.Append Demo.Delete
                    (Demo.deployer "app" "locked") tt tt Demo.sys0))
      with (s' := mkSys 0 [CallRunCmdOut unit string
                             (exec_CommandContext tt "kustomize" ["build"; "app"])])
           (derr := Some Demo.delete_error).
    + reflexivity.
    + reflexivity.
Defined.

(** The claim that the resolver annotates the errors of opening and
    decoding fails: on the example tree the resolver returns the error of
    opening [nowhere/kustomization.yaml], and the error of decoding
    [bad/kustomization.yaml], as they are. *)
Lemma resolver_errors_not_annotated :
  (Demo.tree "nowhere/kustomization.yaml"
   = inr (Demo.ENOENT "nowhere/kustomization.yaml")
   /\ option_map fst (Demo.resolve 1 "nowhere" Demo.fs0)
      = Some (["nowhere/kustomization.yaml"],
              Some (Demo.ENOENT "nowhere/kustomization.yaml"))
   /\ ~ wrapped (Demo.ENOENT "nowhere/kustomization.yaml")
                (Demo.ENOENT "nowhere/kustomization.yaml"))
  /\
  (Demo.tree "bad/kustomization.yaml" = inl Demo.bad_yaml
   /\ Demo.decode Demo.bad_yaml = (kustomization_zero, Some Demo.yaml_error)
   /\ option_map fst (Demo.resolve 1 "bad" Demo.fs0)
      = Some (["bad/kustomization.yaml"], Some Demo.yaml_error)
   /\ ~ wrapped Demo.yaml_error Demo.yaml_error).
Proof.
  repeat split; apply not_wrapped_self.
Qed.

Lemma pipeline_annotates_resolver_does_not_witness :
  fst (Demo.deploy (Demo.deployer "fail" "default") ["img"] Demo.sys0)
  = ([], Some (withMessage (withMessage Demo.exit_error "kustomize build")
                           "reading manifests"))
  /\
  fst (Demo.deploy (Demo.deployer "app" "default") ["bad"] Demo.sys0)
  = ([], Some (withMessage Demo.image_error "replacing images in manifests"))
  /\
  fst (Demo.deploy (Demo.deployer "app" "locked") ["img"] Demo.sys0)
  = ([], Some (withMessage Demo.apply_error "apply"))
  /\
  fst (Demo.cleanup (Demo.deployer "app" "locked") Demo.sys0)
  = Some (withMessage Demo.delete_error "delete")
  /\
  (exists t, returns_from filepath.Join Demo.decode Demo.fs0 1 "nowhere"
               (["nowhere/kustomization.yaml"],
                Some (Demo.ENOENT "nowhere/kustomization.yaml")) t)
  /\
  (exists t, returns_from filepath.Join Demo.decode Demo.fs0 1 "bad"
               (["bad/kustomization.yaml"], Some Demo.yaml_error) t).
Proof.
  pose (claim := fun k builds =>
          pipeline_annotates_resolver_does_not unit unit nat unit string bytes
            Demo.RunCmdOut Demo.Append Demo.ReplaceImages Demo.Apply Demo.Delete
            Demo.parse filepath.Join Demo.decode k tt tt builds Demo.sys0).
  repeat apply conj.
  - destruct (claim (Demo.deployer "fail" "default") ["img"]) as (H & _).
    apply (H [] Demo.exit_error 0). reflexivity.
  - destruct (claim (Demo.deployer "app" "default") ["bad"]) as (_ & H & _).
    apply (H [Demo.deployment]
             (mkSys 0 [CallRunCmdOut unit string
                         (exec_CommandContext tt "kustomize" ["build"; "app"])])
             [] Demo.image_error).
    + reflexivity.
    + discriminate.
    + reflexivity.
  - destruct (claim (Demo.deployer "app" "locked") ["img"]) as (_ & _ & H & _).
    apply (H [Demo.deployment]
             (mkSys 0 [CallRunCmdOut unit string
                         (exec_CommandContext tt "kustomize" ["build"; "app"])])
             [Demo.deployment] [] Demo.apply_error 0).
    + reflexivity.
    + discriminate.
    + reflexivity.
    + reflexivity.
  - destruct (claim (Demo.deployer "app" "locked") ["img"]) as (_ & _ & _ & H & _).
    apply (H [Demo.deployment]
             (mkSys 0 [CallRunCmdOut unit string
                         (exec_CommandContext tt "kustomize" ["build"; "app"])])
             Demo.delete_error 0).
    + reflexivity.
    + reflexivity.
  - destruct (claim (Demo.deployer "app" "default") ["img"]) as (_ & _ & _ & _ & H & _).
    apply (H 0 "nowhere" Demo.fs0). reflexivity.
  - destruct (claim (Demo.deployer "app" "default") ["img"]) as (_ & _ & _ & _ & _ & H).
    apply (H 0 "bad" Demo.fs0 Demo.bad_yaml kustomization_zero); reflexivity.
Defined.

(* ================================================================== *)
(** ** The further statements on the example tree and collaborators *)

Lemma Deploy_applies_and_parses_witness :
  Demo.deploy (Demo.deployer "app" "default") ["img"] Demo.sys0
  = (([Demo.deployment], None),
     mkSys 1 [CallRunCmdOut unit string
                (exec_CommandContext tt "kustomize" ["build"; "app"]);
              CallReplaceImages unit unit [Demo.deployment] ["img"];
              CallApply unit string (mkCLI "default" "minikube" tt) [Demo.deployment];
              CallParse unit unit string [Demo.deployment]]).
Proof.
  apply (Deploy_applies_and_parses unit unit nat unit string bytes
           Demo.RunCmdOut Demo.Append Demo.ReplaceImages Demo.Apply Demo.parse
           (Demo.deployer "app" "default") tt tt ["img"] Demo.sys0
           (mkSys 0 [CallRunCmdOut unit string
                       (exec_CommandContext tt "kustomize" ["build"; "app"])])
           [Demo.deployment] [Demo.deployment] [Demo.deployment] 1).
  - reflexivity.
  - discriminate.
  - reflexivity.
  - reflexivity.
Defined.


Lemma resolve_closes_what_it_opens_witness :
  exists t,
    Demo.broken_ops = [] ++ t /\
    forall open, fd_run Demo.tree open t = Some open.
Proof.
  apply (resolve_closes_what_it_opens filepath.Join Demo.decode 2 "broken" Demo.fs0
           (mkFS Demo.tree Demo.broken_ops)
           (Demo.broken_deps, Some (Demo.ENOENT "broken/gone/kustomization.yaml"))).
  reflexivity.
Defined.

Lemma resolve_error_names_failing_file_witness :
  exists before d,
    Demo.broken_deps = before ++ [defpath filepath.Join d] /\
    (Demo.tree (defpath filepath.Join d)
     = inr (Demo.ENOENT "broken/gone/kustomization.yaml") \/
     exists data contents,
       Demo.tree (defpath filepath.Join d) = inl data /\
       Demo.decode data
       = (contents, Some (Demo.ENOENT "broken/gone/kustomization.yaml"))).
Proof.
  apply (resolve_error_names_failing_file filepath.Join Demo.decode 2 "broken"
           Demo.fs0 (mkFS Demo.tree Demo.broken_ops)).
  reflexivity.
Defined.

Lemma resolve_lists_what_it_touches_witness :
  exists t,
    Demo.app_ops = [] ++ t /\
    forall op, In op t ->
      match op with
      | OpOpen p | OpRead p | OpClose p => In p Demo.app_deps
      end.
Proof.
  apply (resolve_lists_what_it_touches filepath.Join Demo.decode 2 "app" Demo.fs0
           (mkFS Demo.tree Demo.app_ops) Demo.app_deps None).
  reflexivity.
Defined.

Lemma resolve_depends_on_opened_files_witness :
  Demo.resolve 2 "app" (mkFS Demo.tree2 [])
  = Some ((Demo.app_deps, None), mkFS Demo.tree2 Demo.app_ops).
Proof.
  destruct (resolve_depends_on_opened_files filepath.Join Demo.decode 2 "app"
              Demo.fs0 (mkFS Demo.tree Demo.app_ops) (Demo.app_deps, None) eq_refl)
    as (t & Ht & Hsame).
  apply app_inv_head with (l := []) in Ht. subst t.
  apply (Hsame (mkFS Demo.tree2 [])).
  intros p [[= <-]|[Hp|[[= <-]|[Hp|[Hp|[Hp|[]]]]]]]; try discriminate; reflexivity.
Defined.

Lemma resolve_success_inversion_witness :
  exists data contents outs,
    Demo.tree (defpath filepath.Join "app") = inl data /\
    Demo.decode data = (contents, None) /\
    Forall2 (fun base o =>
               returns_from filepath.Join Demo.decode Demo.fs0 1
                            (filepath.Join "app" base) (fst o, None) (snd o))
            (Bases contents) outs /\
    Demo.app_deps
    = [defpath filepath.Join "app"] ++ concat (map fst outs)
        ++ map (filepath.Join "app") (Resources contents)
        ++ map (filepath.Join "app") (Patches contents) /\
    Demo.app_ops
    = [] ++ [OpOpen (defpath filepath.Join "app"); OpRead (defpath filepath.Join "app")]
         ++ concat (map snd outs) ++ [OpClose (defpath filepath.Join "app")].
Proof.
  apply (resolve_success_inversion filepath.Join Demo.decode 1 "app" Demo.fs0
           (mkFS Demo.tree Demo.app_ops) Demo.app_deps).
  reflexivity.
Defined.

Lemma resolve_error_inversion_witness :
  (Demo.tree (defpath filepath.Join "nowhere")
   = inr (Demo.ENOENT "nowhere/kustomization.yaml")
   /\ ["nowhere/kustomization.yaml"] = [defpath filepath.Join "nowhere"])
  \/
  (exists data contents,
      Demo.tree (defpath filepath.Join "nowhere") = inl data /\
      Demo.decode data = (contents, Some (Demo.ENOENT "nowhere/kustomization.yaml")) /\
      ["nowhere/kustomization.yaml"] = [defpath filepath.Join "nowhere"])
  \/
  (exists data contents pre base post outs partial tb,
      Demo.tree (defpath filepath.Join "nowhere") = inl data /\
      Demo.decode data = (contents, None) /\
      Bases contents = pre ++ base :: post /\
      Forall2 (fun b o =>
                 returns_from filepath.Join Demo.decode Demo.fs0 0
                              (filepath.Join "nowhere" b) (fst o, None) (snd o))
              pre outs /\
      returns_from filepath.Join Demo.decode Demo.fs0 0
                   (filepath.Join "nowhere" base)
                   (partial, Some (Demo.ENOENT "nowhere/kustomization.yaml")) tb /\
      ["nowhere/kustomization.yaml"]
      = [defpath filepath.Join "nowhere"] ++ concat (map fst outs) ++ partial).
Proof.
  apply (resolve_error_inversion filepath.Join Demo.decode 0 "nowhere" Demo.fs0
           (mkFS Demo.tree [OpOpen "nowhere/kustomization.yaml"])).
  reflexivity.
Defined.

Lemma resolve_success_well_founded_witness :
  nesting_leb filepath.Join Demo.decode Demo.tree 2 "app" = true /\
  Acc (base_ref filepath.Join Demo.decode Demo.tree) "app".
Proof.
  apply (resolve_success_well_founded filepath.Join Demo.decode 2 "app" Demo.fs0
           (mkFS Demo.tree Demo.app_ops) Demo.app_deps).
  reflexivity.
Defined.


Lemma Dependencies_of_new_deployer_witness :
  (exists rest,
      Demo.app_deps = filepath.Join "app" "kustomization.yaml" :: rest) /\
  Demo.tree = Demo.tree /\
  forall kubeContext' namespace',
    Dependencies filepath.Join Demo.decode
                 (NewKustomizeDeployer (mkKustomizeDeploy "app" tt)
                                       kubeContext' namespace') 2 Demo.fs0
    = Some ((Demo.app_deps, None), mkFS Demo.tree Demo.app_ops).
Proof.
  apply (Dependencies_of_new_deployer unit filepath.Join Demo.decode
           (mkKustomizeDeploy "app" tt) "minikube" "default" 2 Demo.fs0
           (mkFS Demo.tree Demo.app_ops) Demo.app_deps None).
  reflexivity.
Defined.
